(** * Picto: the word selector, the used-word ledger and the countdown timer

    A shallow embedding of [src/PictionaryWordGenerator.tsx].  The React
    component is modelled as a state record, its event handlers as functions
    on that record, and the two [useEffect] hooks as a commit phase that runs
    after every handler.  Platform services the component calls
    ([JSON.parse], [JSON.stringify], [Math.random], [Math.floor],
    [localStorage], [setInterval]) are modelled next to it. *)

From Stdlib Require Import Ascii String.
From Stdlib Require Import List Bool Arith NArith ZArith Lia DecimalPos.
Import ListNotations.

Set Implicit Arguments.

(* ================================================================= *)
(** ** JavaScript strings *)

(** A JavaScript string is a sequence of UTF-16 code units. *)
Definition jsstring := list N.

(** A literal of the source text, as code units. *)
Definition lit (s : string) : jsstring :=
  map N_of_ascii (list_ascii_of_string s).

(** [a === b] on strings. *)
Fixpoint jsstring_eqb (a b : jsstring) : bool :=
  match a, b with
  | [], [] => true
  | x :: a', y :: b' => (x =? y)%N && jsstring_eqb a' b'
  | _, _ => false
  end.

(** [Array.prototype.includes] on an array of strings. *)
Definition includes (arr : list jsstring) (x : jsstring) : bool :=
  existsb (jsstring_eqb x) arr.

(** Truthiness of a [string | null]: [null] and the empty string are falsy. *)
Definition truthy (v : option jsstring) : bool :=
  match v with
  | Some (_ :: _) => true
  | _ => false
  end.

(** Abrupt completions the model can see. *)
Inductive exn := SyntaxError | TypeError.

Inductive completion (A : Type) :=
| Return (a : A)
| Throw (e : exn).
Arguments Return {A} a.
Arguments Throw {A} e.

(* ================================================================= *)
(** ** JSON

    [JSON.stringify] is only ever applied to [usedWords], an array of
    strings; [JSON.parse] is applied to whatever the storage holds, so the
    whole grammar is modelled.  Number tokens are kept as their text: the
    component never looks at them. *)

Open Scope N_scope.

Definition hex_digit (d : N) : N := if d <? 10 then 48 + d else 87 + d.

(** [\uXXXX] with lower-case digits. *)
Definition unicode_escape (c : N) : jsstring :=
  [92; 117; hex_digit (c / 4096 mod 16); hex_digit (c / 256 mod 16);
   hex_digit (c / 16 mod 16); hex_digit (c mod 16)].

Definition is_leading_surrogate (c : N) : bool := (55296 <=? c) && (c <=? 56319).
Definition is_trailing_surrogate (c : N) : bool := (56320 <=? c) && (c <=? 57343).

(** One code unit of a string that is not a surrogate, quoted. *)
Definition quote_unit (c : N) : jsstring :=
  if c =? 8 then [92; 98]
  else if c =? 9 then [92; 116]
  else if c =? 10 then [92; 110]
  else if c =? 12 then [92; 102]
  else if c =? 13 then [92; 114]
  else if c =? 34 then [92; 34]
  else if c =? 92 then [92; 92]
  else if c <? 32 then unicode_escape c
  else [c].

(** The body of [QuoteJSONString]: a surrogate pair is copied, a lone
    surrogate is escaped. *)
Fixpoint quote_units (s : jsstring) : jsstring :=
  match s with
  | [] => []
  | c :: rest =>
      if is_leading_surrogate c then
        match rest with
        | d :: rest' =>
            if is_trailing_surrogate d then c :: d :: quote_units rest'
            else unicode_escape c ++ quote_units rest
        | [] => unicode_escape c
        end
      else if is_trailing_surrogate c then unicode_escape c ++ quote_units rest
      else quote_unit c ++ quote_units rest
  end.

Definition quote (s : jsstring) : jsstring := 34 :: quote_units s ++ [34].

Fixpoint join_quoted (ws : list jsstring) : jsstring :=
  match ws with
  | [] => []
  | [w] => quote w
  | w :: ws' => quote w ++ 44 :: join_quoted ws'
  end.

(** [JSON.stringify(usedWords)] for [usedWords : string[]]. *)
Definition JSON_stringify (ws : list jsstring) : jsstring :=
  91 :: join_quoted ws ++ [93].

#[warnings="-register-all"]
Inductive JSON :=
| JNull
| JBool (b : bool)
| JNumber (token : jsstring)
| JString (s : jsstring)
| JArray (items : list JSON)
| JObject (members : list (jsstring * JSON)).

Definition is_ws (c : N) : bool :=
  (c =? 32) || (c =? 9) || (c =? 10) || (c =? 13).

Fixpoint skip_ws (s : jsstring) : jsstring :=
  match s with
  | c :: r => if is_ws c then skip_ws r else s
  | [] => []
  end.

Definition is_digit (c : N) : bool := (48 <=? c) && (c <=? 57).

Definition hex_value (c : N) : option N :=
  if is_digit c then Some (c - 48)
  else if (97 <=? c) && (c <=? 102) then Some (c - 87)
  else if (65 <=? c) && (c <=? 70) then Some (c - 55)
  else None.

Definition hex4 (a b c d : N) : option N :=
  match hex_value a, hex_value b, hex_value c, hex_value d with
  | Some x, Some y, Some z, Some w => Some (((x * 16 + y) * 16 + z) * 16 + w)
  | _, _, _, _ => None
  end.

(** The character a single-letter escape stands for. *)
Definition unescape (e : N) : option N :=
  if e =? 34 then Some 34
  else if e =? 92 then Some 92
  else if e =? 47 then Some 47
  else if e =? 98 then Some 8
  else if e =? 102 then Some 12
  else if e =? 110 then Some 10
  else if e =? 114 then Some 13
  else if e =? 116 then Some 9
  else None.

Definition cons_unit (c : N) (r : option (jsstring * jsstring))
  : option (jsstring * jsstring) :=
  match r with
  | Some (s, rest) => Some (c :: s, rest)
  | None => None
  end.

(** The characters of a string token after its opening quote, up to and
    including the closing quote. *)
Fixpoint scan_string (s : jsstring) : option (jsstring * jsstring) :=
  match s with
  | [] => None
  | c :: r =>
      if c =? 34 then Some ([], r)
      else if c =? 92 then
        match r with
        | e :: r1 =>
            if e =? 117 then
              match r1 with
              | h1 :: h2 :: h3 :: h4 :: r2 =>
                  match hex4 h1 h2 h3 h4 with
                  | Some u => cons_unit u (scan_string r2)
                  | None => None
                  end
              | _ => None
              end
            else
              match unescape e with
              | Some u => cons_unit u (scan_string r1)
              | None => None
              end
        | [] => None
        end
      else if c <? 32 then None
      else cons_unit c (scan_string r)
  end.

(** A maximal run of digits and what follows it. *)
Fixpoint span_digits (s : jsstring) : jsstring * jsstring :=
  match s with
  | c :: r =>
      if is_digit c then let (ds, rest) := span_digits r in (c :: ds, rest)
      else ([], s)
  | [] => ([], [])
  end.

(** The parts of a number token: an optional minus sign, an integer part
    without a leading zero (or a single zero), an optional fraction, an
    optional exponent. *)
Definition scan_sign (s : jsstring) : jsstring * jsstring :=
  match s with
  | c :: r => if c =? 45 then ([45], r) else ([], s)
  | [] => ([], s)
  end.

Definition scan_int (s : jsstring) : option (jsstring * jsstring) :=
  match s with
  | c :: r =>
      if c =? 48 then Some ([48], r)
      else if is_digit c then
        let (ds, rest) := span_digits r in Some (c :: ds, rest)
      else None
  | [] => None
  end.

Definition scan_frac (s : jsstring) : option (jsstring * jsstring) :=
  match s with
  | c :: r =>
      if c =? 46 then
        match span_digits r with
        | ([], _) => None
        | (ds, rest) => Some (46 :: ds, rest)
        end
      else Some ([], s)
  | [] => Some ([], s)
  end.

Definition scan_exp (s : jsstring) : option (jsstring * jsstring) :=
  match s with
  | c :: r =>
      if (c =? 101) || (c =? 69) then
        let (sg, r') :=
          match r with
          | d :: r0 => if (d =? 43) || (d =? 45) then ([d], r0) else ([], r)
          | [] => ([], r)
          end in
        match span_digits r' with
        | ([], _) => None
        | (ds, rest) => Some (c :: sg ++ ds, rest)
        end
      else Some ([], s)
  | [] => Some ([], s)
  end.

Definition scan_number (s : jsstring) : option (jsstring * jsstring) :=
  let (sign, s1) := scan_sign s in
  match scan_int s1 with
  | None => None
  | Some (ip, s2) =>
      match scan_frac s2 with
      | None => None
      | Some (fp, s3) =>
          match scan_exp s3 with
          | None => None
          | Some (ep, s4) => Some (sign ++ ip ++ fp ++ ep, s4)
          end
      end
  end.

(** [s] minus the prefix [p], when it starts with it. *)
Fixpoint strip_prefix (p s : jsstring) : option jsstring :=
  match p, s with
  | [], _ => Some s
  | x :: p', y :: s' => if x =? y then strip_prefix p' s' else None
  | _ :: _, [] => None
  end.

(** Recursive descent over the JSON grammar.  [fuel] bounds the number of
    nested calls; [JSON_parse] supplies more than twice the length of the
    text, and no larger amount changes the answer
    ([parse_value_fuel] below). *)
Fixpoint parse_value (fuel : nat) (s : jsstring) : option (JSON * jsstring) :=
  match fuel with
  | O => None
  | S f =>
      match skip_ws s with
      | [] => None
      | c :: r =>
          if c =? 34 then
            match scan_string r with
            | Some (str, rest) => Some (JString str, rest)
            | None => None
            end
          else if c =? 91 then
            match skip_ws r with
            | c' :: r' =>
                if c' =? 93 then Some (JArray [], r')
                else
                  match parse_elements f r with
                  | Some (vs, rest) => Some (JArray vs, rest)
                  | None => None
                  end
            | [] => None
            end
          else if c =? 123 then
            match skip_ws r with
            | c' :: r' =>
                if c' =? 125 then Some (JObject [], r')
                else
                  match parse_members f r with
                  | Some (ms, rest) => Some (JObject ms, rest)
                  | None => None
                  end
            | [] => None
            end
          else if c =? 110 then
            match strip_prefix (lit "null") (c :: r) with
            | Some rest => Some (JNull, rest)
            | None => None
            end
          else if c =? 116 then
            match strip_prefix (lit "true") (c :: r) with
            | Some rest => Some (JBool true, rest)
            | None => None
            end
          else if c =? 102 then
            match strip_prefix (lit "false") (c :: r) with
            | Some rest => Some (JBool false, rest)
            | None => None
            end
          else
            match scan_number (c :: r) with
            | Some (tok, rest) => Some (JNumber tok, rest)
            | None => None
            end
      end
  end

with parse_elements (fuel : nat) (s : jsstring) : option (list JSON * jsstring) :=
  match fuel with
  | O => None
  | S f =>
      match parse_value f s with
      | Some (v, r) =>
          match skip_ws r with
          | c :: r' =>
              if c =? 44 then
                match parse_elements f r' with
                | Some (vs, rest) => Some (v :: vs, rest)
                | None => None
                end
              else if c =? 93 then Some ([v], r')
              else None
          | [] => None
          end
      | None => None
      end
  end

with parse_members (fuel : nat) (s : jsstring)
  : option (list (jsstring * JSON) * jsstring) :=
  match fuel with
  | O => None
  | S f =>
      match skip_ws s with
      | q :: r0 =>
          if q =? 34 then
            match scan_string r0 with
            | Some (key, r1) =>
                match skip_ws r1 with
                | colon :: r2 =>
                    if colon =? 58 then
                      match parse_value f r2 with
                      | Some (v, r3) =>
                          match skip_ws r3 with
                          | c :: r4 =>
                              if c =? 44 then
                                match parse_members f r4 with
                                | Some (ms, rest) => Some ((key, v) :: ms, rest)
                                | None => None
                                end
                              else if c =? 125 then Some ([(key, v)], r4)
                              else None
                          | [] => None
                          end
                      | None => None
                      end
                    else None
                | [] => None
                end
            | None => None
            end
          else None
      | [] => None
      end
  end.

(** [JSON.parse(text)]: one value, surrounded by optional white space. *)
Definition JSON_parse (text : jsstring) : completion JSON :=
  match parse_value (S (2 * length text)) text with
  | Some (v, rest) =>
      match skip_ws rest with
      | [] => Return v
      | _ :: _ => Throw SyntaxError
      end
  | None => Throw SyntaxError
  end.

Close Scope N_scope.

(* ================================================================= *)
(** ** [Math.random], [Math.floor] and the numbers between 0 and 1

    A finite double that is not negative is [mant * 2^-expo] for naturals
    [mant < 2^53] and [expo <= 1074]; it is below 1 when [mant < 2^expo]. *)

Open Scope N_scope.

Record dyadic := mkDyadic { mant : N; expo : N }.

Definition is_unit_double (d : dyadic) : bool :=
  (mant d <? 2 ^ 53) && (expo d <=? 1074) && (mant d <? 2 ^ expo d).

(** What [Math.random()] can return. *)
Record random_number := mkRandom {
  rn_value :> dyadic;
  rn_range : is_unit_double rn_value = true
}.

(** [x < y] on the values denoted. *)
Definition dyadic_ltb (x y : dyadic) : bool :=
  mant x * 2 ^ expo y <? mant y * 2 ^ expo x.

(** The nearest integer with at most 53 significant bits, ties to even. *)
Definition round53 (p : N) : N :=
  let sh := N.size p - 53 in
  if sh =? 0 then p
  else
    let q := N.shiftr p sh in
    let r := p mod 2 ^ sh in
    let half := 2 ^ (sh - 1) in
    let q' := if half <? r then q + 1
              else if (r =? half) && N.odd q then q + 1
              else q in
    N.shiftl q' sh.

(** [x * n] in double arithmetic, for an integer [n] below [2^53]. *)
Definition fmul (x : dyadic) (n : N) : dyadic :=
  {| mant := round53 (mant x * n); expo := expo x |}.

(** [Math.floor(x)]. *)
Definition Math_floor (x : dyadic) : N := N.shiftr (mant x) (expo x).

Close Scope N_scope.

(** The source of random numbers: an endless sequence and how far it has
    been read. *)
Record Rng := mkRng { draws : nat -> random_number; cursor : nat }.

Definition Math_random (g : Rng) : random_number * Rng :=
  (draws g (cursor g), {| draws := draws g; cursor := S (cursor g) |}).

(* ================================================================= *)
(** ** Constants and data of the component *)

Open Scope Z_scope.

Definition TIMER_DURATION : Z := 60.
Definition TIMER_OPTIONS : list Z := [30; 45; 60; 75; 90; 120].

(** The double written [0.2] in the source. *)
Definition ALL_PLAY_PROBABILITY : dyadic :=
  {| mant := 3602879701896397; expo := 54 |}.

Record CategoryData := mkCategoryData {
  cat_color : jsstring;
  words : list jsstring
}.

(** [Object.entries(WORD_CATEGORIES)]: the categories in the order the
    object enumerates them. *)
Definition WordCategories := list (jsstring * CategoryData).

Record AvailableWord := mkAvailableWord {
  category : jsstring;
  word : jsstring;
  color : jsstring
}.

(** The [useState] cells.  [usedWordsRef] is the identity of the array held
    in [usedWords]: every call of [setUsedWords] in the source passes a newly
    allocated array, and the effect that saves the ledger compares by
    identity. *)
Record State := mkState {
  usedWords : list jsstring;
  usedWordsRef : nat;
  currentCategory : option jsstring;
  currentWord : option jsstring;
  isAllPlay : bool;
  timerDuration : Z;
  timeRemaining : Z;
  timerRunning : bool;
  wordRevealed : bool;
  showSettings : bool
}.

Definition setUsedWords (v : list jsstring) (s : State) : State :=
  mkState v (S (usedWordsRef s)) (currentCategory s) (currentWord s)
          (isAllPlay s) (timerDuration s) (timeRemaining s) (timerRunning s)
          (wordRevealed s) (showSettings s).

Definition setCurrentCategory (v : option jsstring) (s : State) : State :=
  mkState (usedWords s) (usedWordsRef s) v (currentWord s)
          (isAllPlay s) (timerDuration s) (timeRemaining s) (timerRunning s)
          (wordRevealed s) (showSettings s).

Definition setCurrentWord (v : option jsstring) (s : State) : State :=
  mkState (usedWords s) (usedWordsRef s) (currentCategory s) v
          (isAllPlay s) (timerDuration s) (timeRemaining s) (timerRunning s)
          (wordRevealed s) (showSettings s).

Definition setIsAllPlay (v : bool) (s : State) : State :=
  mkState (usedWords s) (usedWordsRef s) (currentCategory s) (currentWord s)
          v (timerDuration s) (timeRemaining s) (timerRunning s)
          (wordRevealed s) (showSettings s).

Definition setTimerDuration (v : Z) (s : State) : State :=
  mkState (usedWords s) (usedWordsRef s) (currentCategory s) (currentWord s)
          (isAllPlay s) v (timeRemaining s) (timerRunning s)
          (wordRevealed s) (showSettings s).

Definition setTimeRemaining (v : Z) (s : State) : State :=
  mkState (usedWords s) (usedWordsRef s) (currentCategory s) (currentWord s)
          (isAllPlay s) (timerDuration s) v (timerRunning s)
          (wordRevealed s) (showSettings s).

Definition setTimerRunning (v : bool) (s : State) : State :=
  mkState (usedWords s) (usedWordsRef s) (currentCategory s) (currentWord s)
          (isAllPlay s) (timerDuration s) (timeRemaining s) v
          (wordRevealed s) (showSettings s).

Definition setWordRevealed (v : bool) (s : State) : State :=
  mkState (usedWords s) (usedWordsRef s) (currentCategory s) (currentWord s)
          (isAllPlay s) (timerDuration s) (timeRemaining s) (timerRunning s)
          v (showSettings s).

Definition setShowSettings (v : bool) (s : State) : State :=
  mkState (usedWords s) (usedWordsRef s) (currentCategory s) (currentWord s)
          (isAllPlay s) (timerDuration s) (timeRemaining s) (timerRunning s)
          (wordRevealed s) v.

(** What the component touches outside its own state. *)
Record Env := mkEnv {
  localStorage : option jsstring;  (* the item under STORAGE_KEY, if any *)
  timerRef : bool;                 (* timerRef.current is a live interval *)
  alerts : nat;                    (* calls of playTimeUpAlert so far *)
  toasts : nat;                    (* calls of notify so far *)
  random : Rng
}.

Definition setItem (v : jsstring) (e : Env) : Env :=
  mkEnv (Some v) (timerRef e) (alerts e) (toasts e) (random e).

Definition removeItem (e : Env) : Env :=
  mkEnv None (timerRef e) (alerts e) (toasts e) (random e).

Definition setInterval (e : Env) : Env :=
  mkEnv (localStorage e) true (alerts e) (toasts e) (random e).

Definition clearInterval (e : Env) : Env :=
  mkEnv (localStorage e) false (alerts e) (toasts e) (random e).

Definition playTimeUpAlert (e : Env) : Env :=
  mkEnv (localStorage e) (timerRef e) (S (alerts e)) (toasts e) (random e).

Definition notify (e : Env) : Env :=
  mkEnv (localStorage e) (timerRef e) (alerts e) (S (toasts e)) (random e).

Definition nextRandom (e : Env) : random_number * Env :=
  let (x, g) := Math_random (random e) in
  (x, mkEnv (localStorage e) (timerRef e) (alerts e) (toasts e) g).

(** The environment after [k] more calls of [Math.random]. *)
Definition after_draws (k : nat) (e : Env) : Env :=
  mkEnv (localStorage e) (timerRef e) (alerts e) (toasts e)
        (mkRng (draws (random e)) (k + cursor (random e))).

Record World := mkWorld { state : State; env : Env }.

(* ================================================================= *)
(** ** The component *)

Notation "s |> f" := (f s) (at level 45, left associativity, only parsing).

(** The initializer of [usedWords]: [saved ? JSON.parse(saved) : []]. *)
Definition usedWords_init (saved : option jsstring) : completion JSON :=
  match saved with
  | Some [] | None => Return (JArray [])
  | Some text => JSON_parse text
  end.

Section Component.

(** The imported [./data/questions.json]. *)
Variable WORD_CATEGORIES : WordCategories.

Definition getAvailableWords (s : State) : list AvailableWord :=
  fold_left
    (fun available '(categoryKey, categoryData) =>
       fold_left
         (fun available word =>
            if negb (includes (usedWords s) word)
            then available ++
                 [mkAvailableWord categoryKey word (cat_color categoryData)]
            else available)
         (words categoryData) available)
    WORD_CATEGORIES [].

Definition startTimer (s : State) : State :=
  if truthy (currentWord s) then s |> setTimerRunning true else s.

Definition stopTimer (s : State) : State :=
  s |> setTimerRunning false.

Definition restartTimer (s : State) : State :=
  s |> setTimeRemaining (timerDuration s) |> setTimerRunning true.

Definition changeTimerDuration (duration : Z) (s : State) : State :=
  s |> setTimerDuration duration |> setTimeRemaining duration
    |> setTimerRunning false.

Definition resetGame (s : State) (e : Env) : State * Env :=
  (s |> setUsedWords [] |> setCurrentCategory None |> setCurrentWord None
     |> setIsAllPlay false |> setTimeRemaining (timerDuration s)
     |> setTimerRunning false |> setWordRevealed false,
   removeItem e).

(** [confirm] is the answer [window.confirm] gives if it is asked. *)
Definition selectRandomWord (confirm : bool) (s : State) (e : Env)
  : completion (State * Env) :=
  let available := getAvailableWords s in
  if (length available =? 0)%nat then
    if confirm then Return (resetGame s e) else Return (s, e)
  else
    let (r, e1) := nextRandom e in
    let i := Math_floor (fmul r (N.of_nat (length available))) in
    match nth_error available (N.to_nat i) with
    | None => Throw TypeError
    | Some selected =>
        let (shouldBeAllPlay, e2) :=
          if jsstring_eqb (category selected) (lit "random")
          then (true, e1)
          else let (r', e') := nextRandom e1 in
               (dyadic_ltb r' ALL_PLAY_PROBABILITY, e') in
        Return
          (s |> setCurrentCategory (Some (category selected))
             |> setCurrentWord (Some (word selected))
             |> setIsAllPlay shouldBeAllPlay
             |> setUsedWords (usedWords s ++ [word selected])
             |> setTimeRemaining (timerDuration s)
             |> setTimerRunning false
             |> setWordRevealed false,
           e2)
    end.

Definition handleWordBoxInteraction (s : State) : State :=
  s |> setWordRevealed true.

Definition handleWordBoxRelease (s : State) : State :=
  s |> setWordRevealed false.

(** The callback of the interval: one run of the updater passed to
    [setTimeRemaining], with the calls it makes on the way.  React runs the
    updater once per callback in a production build; [onIntervalIn] below
    has the development build as well. *)
Definition onInterval (s : State) (e : Env) : State * Env :=
  let prev := timeRemaining s in
  if prev <=? 1
  then (s |> setTimerRunning false |> setTimeRemaining 0,
        e |> playTimeUpAlert |> notify)
  else (s |> setTimeRemaining (prev - 1), e).

(** The effect with dependency [usedWords]. *)
Definition saveEffect (old new : State) (e : Env) : Env :=
  if (usedWordsRef old =? usedWordsRef new)%nat then e
  else e |> setItem (JSON_stringify (usedWords new)).

(** The effect with dependencies [timerRunning] and [timeRemaining]: when
    one of them changed, the cleanup of the previous run and then the
    body. *)
Definition timerEffect (old new : State) (e : Env) : Env :=
  if Bool.eqb (timerRunning old) (timerRunning new)
     && (timeRemaining old =? timeRemaining new)
  then e
  else
    let e1 := if timerRef e then clearInterval e else e in
    if timerRunning new && (0 <? timeRemaining new)
    then e1 |> setInterval
    else if timerRef e1 then clearInterval e1 else e1.

(** The effects React runs after rendering [new] over [old]. *)
Definition commit (old new : State) (e : Env) : Env :=
  e |> saveEffect old new |> timerEffect old new.

(** What can happen to the mounted component. *)
Inductive Event :=
| NextWord (confirm : bool)
| Start
| Stop
| Restart
| ChooseDuration (duration : Z)
| Reset
| Press
| Release
| ToggleSettings
| CloseSettings
| Tick.

Definition handle (ev : Event) (s : State) (e : Env)
  : completion (State * Env) :=
  match ev with
  | NextWord confirm => selectRandomWord confirm s e
  | Start => Return (startTimer s, e)
  | Stop => Return (stopTimer s, e)
  | Restart => Return (restartTimer s, e)
  | ChooseDuration duration =>
      Return (s |> changeTimerDuration duration |> setShowSettings false, e)
  | Reset => Return (resetGame s e)
  | Press => Return (handleWordBoxInteraction s, e)
  | Release => Return (handleWordBoxRelease s, e)
  | ToggleSettings => Return (s |> setShowSettings (negb (showSettings s)), e)
  | CloseSettings => Return (s |> setShowSettings false, e)
  | Tick => Return (onInterval s e)
  end.

(** The settings dialog offers the entries of [TIMER_OPTIONS] and nothing
    else; the interval callback runs only for a live interval.  The
    buttons for start, stop and restart are disabled while no word is
    selected: the model lets those handlers run in every state, which
    covers whatever the buttons allow. *)
Definition enabled (ev : Event) (w : World) : bool :=
  match ev with
  | ChooseDuration duration => existsb (Z.eqb duration) TIMER_OPTIONS
  | Tick => timerRef (env w)
  | _ => true
  end.

(** One turn of the event loop: the handler, then the effects.  [None]
    when the event cannot occur or its handler throws. *)
Definition fire (ev : Event) (w : World) : option World :=
  if enabled ev w then
    match handle ev (state w) (env w) with
    | Return (s', e') => Some (mkWorld s' (commit (state w) s' e'))
    | Throw _ => None
    end
  else None.

Fixpoint run (evs : list Event) (w : World) : option World :=
  match evs with
  | [] => Some w
  | ev :: evs' =>
      match fire ev w with
      | Some w' => run evs' w'
      | None => None
      end
  end.

(** The view of a parsed value as a [string[]], the type the source gives
    to [usedWords]. *)
Fixpoint as_strings (items : list JSON) : option (list jsstring) :=
  match items with
  | [] => Some []
  | JString str :: items' =>
      match as_strings items' with
      | Some ws => Some (str :: ws)
      | None => None
      end
  | _ :: _ => None
  end.

Definition as_string_array (v : JSON) : option (list jsstring) :=
  match v with
  | JArray items => as_strings items
  | _ => None
  end.

Definition initialState (ledger : list jsstring) : State :=
  mkState ledger 0 None None false TIMER_DURATION TIMER_DURATION
          false false false.

(** Mounting the component over a storage holding [saved]: the
    initializers, then the first run of both effects.  [None] when the
    initializer throws, or yields a value that is not a [string[]]. *)
Definition mount (saved : option jsstring) (g : Rng) : option World :=
  match usedWords_init saved with
  | Return v =>
      match as_string_array v with
      | Some ledger =>
          Some (mkWorld (initialState ledger)
                        (mkEnv saved false 0 0 g
                           |> setItem (JSON_stringify ledger)))
      | None => None
      end
  | Throw _ => None
  end.

Inductive reachable : World -> Prop :=
| reachable_mount saved g w :
    mount saved g = Some w -> reachable w
| reachable_fire w ev w' :
    reachable w -> fire ev w = Some w' -> reachable w'.

End Component.

(** *** The selector in the words of the specification *)

(** All (category, word) pairs of a pool, category by category. *)
Definition pairs (P : WordCategories) : list (jsstring * jsstring) :=
  flat_map (fun entry => map (pair (fst entry)) (words (snd entry))) P.

(** The pairs whose word is not in the ledger. *)
Definition eligible (P : WordCategories) (L : list jsstring)
  : list (jsstring * jsstring) :=
  filter (fun cw => negb (includes L (snd cw))) (pairs P).

(** *** Auxiliary notions of the proofs *)

(** What the handlers and the effects maintain: the time left is within
    the duration, and an interval is live exactly while the timer is
    running with time left. *)
Definition timer_inv (w : World) : Prop :=
  (0 <= timeRemaining (state w) <= timerDuration (state w) /\
   0 < timerDuration (state w)) /\
  timerRef (env w) =
  timerRunning (state w) && (0 <? timeRemaining (state w)).

(** The words one category contributes, given the ledger. *)
Definition available_in (L : list jsstring) (entry : jsstring * CategoryData)
  : list AvailableWord :=
  map (fun w => mkAvailableWord (fst entry) w (cat_color (snd entry)))
      (filter (fun w => negb (includes L w)) (words (snd entry))).

(** The index [selectRandomWord] computes from the next random number. *)
Definition drawn_index (P : WordCategories) (s : State) (e : Env) : nat :=
  N.to_nat
    (Math_floor
       (fmul (draws (random e) (cursor (random e)))
             (N.of_nat (length (getAvailableWords P s))))).

(** *** Concrete data for examples *)

(** The pool of the scenario in the specification, with one more category
    under the reserved identifier. *)
Definition demo_pool : WordCategories :=
  [(lit "animals", mkCategoryData (lit "blue") [lit "cat"; lit "dog"]);
   (lit "random", mkCategoryData (lit "red") [lit "wink"])].

Definition draw_zero : random_number := @mkRandom (mkDyadic 0 0) eq_refl.
Definition draw_top : random_number :=
  @mkRandom (mkDyadic 9007199254740991 53) eq_refl.

Definition demo_rng : Rng := mkRng (fun _ => draw_zero) 0.

(** A freshly mounted component over an empty storage. *)
Definition fresh_world : World :=
  mkWorld (initialState [])
          (mkEnv (Some (JSON_stringify [])) false 0 0 demo_rng).

(** "cat" was drawn, the duration set to 30 seconds, and the countdown ran
    out. *)
Definition expired_script : list Event :=
  [NextWord false; ChooseDuration 30; Start] ++ repeat Tick 30.

Definition expired_world : World :=
  mkWorld (mkState [lit "cat"] 1 (Some (lit "animals")) (Some (lit "cat"))
                   true 30 0 false false false)
          (mkEnv (Some (JSON_stringify [lit "cat"])) false 1 1
                 (mkRng (fun _ => draw_zero) 2)).

(** "cat" was drawn and the countdown is running. *)
Definition running_world : World :=
  mkWorld (mkState [lit "cat"] 1 (Some (lit "animals")) (Some (lit "cat"))
                   true 60 60 true false false)
          (mkEnv (Some (JSON_stringify [lit "cat"])) true 0 0
                 (mkRng (fun _ => draw_zero) 2)).

(** Every word of [demo_pool] has been shown. *)
Definition exhausted_world : World :=
  mkWorld (mkState [lit "cat"; lit "dog"; lit "wink"] 3
                   (Some (lit "random")) (Some (lit "wink"))
                   true 60 42 true true false)
          (mkEnv (Some (JSON_stringify [lit "cat"; lit "dog"; lit "wink"]))
                 true 0 0 (mkRng (fun _ => draw_zero) 4)).

(** "wink", in the category ["random"], is the one word left. *)
Definition wink_left_world : World :=
  mkWorld (mkState [lit "cat"; lit "dog"] 2
                   (Some (lit "animals")) (Some (lit "dog"))
                   false 60 60 false false false)
          (mkEnv (Some (JSON_stringify [lit "cat"; lit "dog"])) false 0 0
                 (mkRng (fun _ => draw_top) 4)).

(** A value under the ledger key that is not JSON. *)
Definition malformed_save : jsstring := lit "cat,dog".

(* ================================================================= *)
(** ** What the component displays, and its controls *)

(** [Number.MAX_SAFE_INTEGER], [2^53 - 1]. *)
Definition MAX_SAFE_INTEGER : Z := 9007199254740991.

(** The decimal digits of a numeral, most significant first. *)
Fixpoint uint_units (d : Decimal.uint) : jsstring :=
  match d with
  | Decimal.Nil => []
  | Decimal.D0 d' => 48%N :: uint_units d'
  | Decimal.D1 d' => 49%N :: uint_units d'
  | Decimal.D2 d' => 50%N :: uint_units d'
  | Decimal.D3 d' => 51%N :: uint_units d'
  | Decimal.D4 d' => 52%N :: uint_units d'
  | Decimal.D5 d' => 53%N :: uint_units d'
  | Decimal.D6 d' => 54%N :: uint_units d'
  | Decimal.D7 d' => 55%N :: uint_units d'
  | Decimal.D8 d' => 56%N :: uint_units d'
  | Decimal.D9 d' => 57%N :: uint_units d'
  end.

(** The string of an integer, as a template literal or [toString()] gives
    it.  JavaScript writes the shortest digits that identify the double, so
    this is the code's string for the integers a double holds exactly, those
    up to [MAX_SAFE_INTEGER] in size, and no further. *)
Definition Number_toString (n : Z) : jsstring :=
  match n with
  | Z0 => [48%N]
  | Zpos p => uint_units (Pos.to_uint p)
  | Zneg p => 45%N :: uint_units (Pos.to_uint p)
  end.

(** [s.padStart(targetLength, fill)] for a filler of one code unit. *)
Definition padStart (targetLength : nat) (fill : N) (s : jsstring) : jsstring :=
  repeat fill (targetLength - length s) ++ s.

(** [formatTime(seconds)] for an integer number of seconds up to
    [MAX_SAFE_INTEGER] in size: [Math.floor] of the quotient, and the
    remainder with the sign of [seconds]. *)
Definition formatTime (seconds : Z) : jsstring :=
  let mins := seconds / 60 in
  let secs := Z.rem seconds 60 in
  Number_toString mins ++ 58%N :: padStart 2 48%N (Number_toString secs).

(** [s.split(sep)] for a separator of one code unit. *)
Fixpoint split (sep : N) (s : jsstring) : list jsstring :=
  match s with
  | [] => [[]]
  | c :: r =>
      if (c =? sep)%N then [] :: split sep r
      else
        match split sep r with
        | seg :: segs => (c :: seg) :: segs
        | [] => [[c]]
        end
  end.

(** [parts.join(sep)]. *)
Fixpoint join (sep : jsstring) (parts : list jsstring) : jsstring :=
  match parts with
  | [] => []
  | [w] => w
  | w :: parts' => w ++ sep ++ join sep parts'
  end.

(** [w.charAt(0)] and [w.slice(1)]. *)
Definition charAt0 (w : jsstring) : jsstring :=
  match w with
  | [] => []
  | c :: _ => [c]
  end.

Definition slice1 (w : jsstring) : jsstring := tl w.

Section Display.

(** The imported [./data/questions.json]. *)
Variable WORD_CATEGORIES : WordCategories.

(** [String.prototype.toUpperCase], which follows the Unicode tables. *)
Variable toUpperCase : jsstring -> jsstring.

Definition formatCategoryName (s : State) : jsstring :=
  match currentCategory s with
  | Some ((_ :: _) as name) =>
      join (lit " ")
           (map (fun w => toUpperCase (charAt0 w) ++ slice1 w)
                (split 95%N name))
  | _ => lit "No Category"
  end.

(** The two numbers of the line "Words Remaining". *)
Definition availableCount (s : State) : nat :=
  length (getAvailableWords WORD_CATEGORIES s).

Definition totalWords : nat :=
  fold_left (fun sum cat => (sum + length (words (snd cat)))%nat)
            WORD_CATEGORIES 0%nat.

(** What the user can do to the page, and the interval firing. *)
Inductive Gesture :=
| ClickNextWord (confirm : bool)
| ClickStartStop
| ClickRestart
| ClickResetGame
| ClickSettings
| ClickDuration (duration : Z)
| ClickClose
| PressWordBox
| ReleaseWordBox
| IntervalFires.

(** The handler a gesture reaches, as the JSX binds it: the start/stop
    button runs [stopTimer] or [startTimer] by [timerRunning]; that button
    and the restart button are disabled without a current word; pressing the
    word box is bound only with a current word; the duration buttons and the
    close button exist only while the settings are shown. *)
Definition bound_handler (g : Gesture) (s : State) : option Event :=
  match g with
  | ClickNextWord confirm => Some (NextWord confirm)
  | ClickStartStop =>
      if truthy (currentWord s)
      then Some (if timerRunning s then Stop else Start)
      else None
  | ClickRestart => if truthy (currentWord s) then Some Restart else None
  | ClickResetGame => Some Reset
  | ClickSettings => Some ToggleSettings
  | ClickDuration duration =>
      if showSettings s then Some (ChooseDuration duration) else None
  | ClickClose => if showSettings s then Some CloseSettings else None
  | PressWordBox => if truthy (currentWord s) then Some Press else None
  | ReleaseWordBox => Some Release
  | IntervalFires => Some Tick
  end.

Definition perform (g : Gesture) (w : World) : option World :=
  match bound_handler g (state w) with
  | Some ev => fire WORD_CATEGORIES ev w
  | None => None
  end.

Fixpoint perform_all (gs : list Gesture) (w : World) : option World :=
  match gs with
  | [] => Some w
  | g :: gs' =>
      match perform g w with
      | Some w' => perform_all gs' w'
      | None => None
      end
  end.

End Display.

(** *** Auxiliary notions of the proofs about the display *)

(** [formatCategoryName] in one pass: [fresh] tells whether the next code
    unit starts a part. *)
Fixpoint title_pass (toUpperCase : jsstring -> jsstring) (fresh : bool)
         (s : jsstring) : jsstring :=
  match s with
  | [] => []
  | c :: r =>
      if (c =? 95)%N then 32%N :: title_pass toUpperCase true r
      else (if fresh then toUpperCase [c] else [c])
             ++ title_pass toUpperCase false r
  end.

(** All words of a pool, category by category. *)
Definition pool_words (P : WordCategories) : list jsstring :=
  flat_map (fun entry => words (snd entry)) P.

(** Upper case for the letters a to z, every other code unit unchanged. *)
Definition ascii_upper (s : jsstring) : jsstring :=
  map (fun c => if ((97 <=? c) && (c <=? 122))%N then (c - 32)%N else c) s.

(** "cat" is selected, with the category spelt with an underscore. *)
Definition titled_state : State :=
  mkState [lit "cat"] 1 (Some (lit "farm_animals")) (Some (lit "cat"))
          false 60 60 false false false.

(* ================================================================= *)
(** ** The two builds

    [src/main.tsx] mounts the component under [<StrictMode>].  In a
    development build React then calls every state updater twice with the
    same previous value, to expose updaters that are not pure, and keeps one
    of the two equal results; whatever the updater calls on the way is
    called twice.  A production build calls it once.  Event handlers are
    called once in both. *)

Inductive Build := Production | Development.

(** The callback of the interval in a build: the updater of [onInterval],
    run once or twice from the same [prev]. *)
Definition onIntervalIn (b : Build) (s : State) (e : Env) : State * Env :=
  match b with
  | Production => onInterval s e
  | Development => let (_, e1) := onInterval s e in onInterval s e1
  end.

(** One turn of the event loop in a build. *)
Definition fireIn (P : WordCategories) (b : Build) (ev : Event) (w : World)
  : option World :=
  match ev with
  | Tick =>
      if enabled Tick w then
        let (s', e') := onIntervalIn b (state w) (env w) in
        Some (mkWorld s' (commit (state w) s' e'))
      else None
  | _ => fire P ev w
  end.

Fixpoint runIn (P : WordCategories) (b : Build) (evs : list Event)
         (w : World) : option World :=
  match evs with
  | [] => Some w
  | ev :: evs' =>
      match fireIn P b ev w with
      | Some w' => runIn P b evs' w'
      | None => None
      end
  end.

(** "cat" was drawn and the timer has not been started. *)
Definition ready_world : World :=
  mkWorld (mkState [lit "cat"] 1 (Some (lit "animals")) (Some (lit "cat"))
                   true 60 60 false false false)
          (mkEnv (Some (JSON_stringify [lit "cat"])) false 0 0
                 (mkRng (fun _ => draw_zero) 2)).

(** The component mounted over a ledger that holds a word the pool does not
    have. *)
Definition stale_world : World :=
  mkWorld (initialState [lit "zebra"])
          (mkEnv (Some (JSON_stringify [lit "zebra"])) false 0 0 demo_rng).

(* ================================================================= *)
(** * Properties *)

(** ** The event loop *)

Lemma reachable_run P w evs w' :
  reachable P w -> run P evs w = Some w' -> reachable P w'.
Proof.
  revert w. induction evs as [|ev evs IH]; simpl; intros w Hw Hrun.
  - now inversion Hrun; subst.
  - destruct (fire P ev w) as [w1|] eqn:Hfire; [|discriminate].
    eapply IH; [|exact Hrun]. eapply reachable_fire; eauto.
Qed.

Lemma run_cons P ev evs w :
  run P (ev :: evs) w =
  match fire P ev w with Some w1 => run P evs w1 | None => None end.
Proof. reflexivity. Qed.

Lemma fresh_world_reachable P : reachable P fresh_world.
Proof.
  apply reachable_mount with (saved := None) (g := demo_rng). reflexivity.
Qed.

Lemma expired_world_run :
  run demo_pool expired_script fresh_world = Some expired_world.
Proof. vm_compute. reflexivity. Qed.

Lemma expired_world_reachable : reachable demo_pool expired_world.
Proof.
  eapply reachable_run; [apply fresh_world_reachable | apply expired_world_run].
Qed.

(** ** The timer *)

Section Timer.

Variable P : WordCategories.

Lemma timerEffect_timerRef old new e :
  timerRef (timerEffect old new e) =
  if Bool.eqb (timerRunning old) (timerRunning new)
     && (timeRemaining old =? timeRemaining new)
  then timerRef e
  else timerRunning new && (0 <? timeRemaining new).
Proof.
  unfold timerEffect.
  destruct (Bool.eqb _ _ && (_ =? _)); [reflexivity|].
  destruct (timerRunning new && (0 <? timeRemaining new));
    destruct (timerRef e) eqn:He; simpl; rewrite ?He; reflexivity.
Qed.

Lemma commit_timerRef old new e :
  timerRef e = timerRunning old && (0 <? timeRemaining old) ->
  timerRef (commit old new e) =
  timerRunning new && (0 <? timeRemaining new).
Proof.
  intros He. unfold commit. rewrite timerEffect_timerRef.
  assert (Hs : timerRef (saveEffect old new e) = timerRef e)
    by (unfold saveEffect; destruct (_ =? _)%nat; reflexivity).
  rewrite Hs.
  destruct (Bool.eqb (timerRunning old) (timerRunning new)) eqn:Hr;
    destruct (timeRemaining old =? timeRemaining new) eqn:Ht; simpl;
    try reflexivity.
  apply Bool.eqb_prop in Hr. apply Z.eqb_eq in Ht. congruence.
Qed.

(** The effects touch neither the counters of the alert nor the random
    source. *)
Lemma commit_alerts old new e :
  alerts (commit old new e) = alerts e /\
  toasts (commit old new e) = toasts e /\
  random (commit old new e) = random e.
Proof.
  unfold commit, timerEffect, saveEffect.
  repeat match goal with
         | |- context [if ?b then _ else _] => destruct b; simpl
         end; auto.
Qed.

(** No effect runs when the handler changed nothing. *)
Lemma commit_same s e : commit s s e = e.
Proof.
  unfold commit, timerEffect, saveEffect.
  now rewrite Nat.eqb_refl, Bool.eqb_reflx, Z.eqb_refl.
Qed.

Lemma nextRandom_env e :
  localStorage (snd (nextRandom e)) = localStorage e /\
  timerRef (snd (nextRandom e)) = timerRef e /\
  alerts (snd (nextRandom e)) = alerts e /\
  toasts (snd (nextRandom e)) = toasts e /\
  cursor (random (snd (nextRandom e))) = S (cursor (random e)) /\
  draws (random (snd (nextRandom e))) = draws (random e) /\
  fst (nextRandom e) = draws (random e) (cursor (random e)).
Proof. unfold nextRandom, Math_random. simpl. auto 10. Qed.

(** A handler leaves the interval alone, and the time it leaves is within
    the duration it leaves. *)
Lemma handle_timer ev w s' e' :
  0 <= timeRemaining (state w) <= timerDuration (state w) /\
  0 < timerDuration (state w) ->
  enabled ev w = true ->
  handle P ev (state w) (env w) = Return (s', e') ->
  timerRef e' = timerRef (env w) /\
  0 <= timeRemaining s' <= timerDuration s' /\
  0 < timerDuration s'.
Proof.
  destruct w as [s e]. simpl. intros Hr Hen Hh.
  destruct ev; simpl in Hh, Hen.
  - (* NextWord *)
    unfold selectRandomWord in Hh.
    destruct (length (getAvailableWords P s) =? 0)%nat.
    + destruct confirm; inversion Hh; subst; simpl; split; auto; lia.
    + destruct (nextRandom e) as [r e1] eqn:Hn.
      pose proof (nextRandom_env e) as He1. rewrite Hn in He1. simpl in He1.
      destruct (nth_error _ _) as [sel|]; [|discriminate].
      destruct (jsstring_eqb (category sel) (lit "random")).
      * inversion Hh; subst; simpl. split; [tauto | lia].
      * destruct (nextRandom e1) as [r' e2] eqn:Hn'.
        pose proof (nextRandom_env e1) as He2. rewrite Hn' in He2.
        simpl in He2.
        inversion Hh; subst; simpl. split; [|lia].
        destruct He1 as (_ & <- & _). tauto.
  - unfold startTimer in Hh. destruct (truthy (currentWord s));
      inversion Hh; subst; simpl; auto.
  - inversion Hh; subst; simpl; auto.
  - inversion Hh; subst; simpl; split; auto; lia.
  - inversion Hh; subst; simpl; split; auto.
    assert (0 < duration) by
      (repeat (destruct Hen as [Hen|Hen] || apply orb_prop in Hen);
       try discriminate; apply Z.eqb_eq in Hen; lia).
    lia.
  - inversion Hh; subst; simpl; split; auto; lia.
  - inversion Hh; subst; simpl; auto.
  - inversion Hh; subst; simpl; auto.
  - inversion Hh; subst; simpl; auto.
  - inversion Hh; subst; simpl; auto.
  - unfold onInterval in Hh.
    destruct (timeRemaining s <=? 1) eqn:Hle; inversion Hh; subst; simpl;
      split; auto; lia.
Qed.

Lemma fire_timer_inv ev w w' :
  timer_inv w -> fire P ev w = Some w' -> timer_inv w'.
Proof.
  intros [Hr Hi] Hf. unfold fire in Hf.
  destruct (enabled ev w) eqn:Hen; [|discriminate].
  destruct (handle P ev (state w) (env w)) as [[s' e']|] eqn:Hh;
    [|discriminate].
  inversion Hf; subst; clear Hf.
  destruct (handle_timer ev w Hr Hen Hh) as [Href Hr'].
  split; simpl; [exact Hr'|].
  (* the handler may have changed the state, never the interval *)
  unfold commit.
  assert (Hs : timerRef (saveEffect (state w) s' e') = timerRef (env w)).
  { unfold saveEffect. destruct (_ =? _)%nat; simpl; auto. }
  pose proof (@commit_timerRef (state w) s' e') as Hc.
  unfold commit in Hc. apply Hc. congruence.
Qed.

Lemma mount_timer_inv saved g w : mount saved g = Some w -> timer_inv w.
Proof.
  unfold mount. intros H.
  destruct (usedWords_init saved) as [v|]; [|discriminate].
  destruct (as_string_array v); [|discriminate].
  inversion H; subst. unfold timer_inv; simpl.
  unfold TIMER_DURATION. split; [lia | reflexivity].
Qed.

Lemma reachable_timer_inv w : reachable P w -> timer_inv w.
Proof.
  induction 1 as [saved g w Hm | w ev w' _ IH Hf].
  - eapply mount_timer_inv; eauto.
  - eapply fire_timer_inv; eauto.
Qed.

(** One callback of a live interval. *)
Lemma tick_step w :
  timerRef (env w) = true ->
  timerRunning (state w) = true ->
  0 < timeRemaining (state w) ->
  exists w',
    fire P Tick w = Some w' /\
    timeRemaining (state w') = timeRemaining (state w) - 1 /\
    timerDuration (state w') = timerDuration (state w) /\
    (timeRemaining (state w) = 1 ->
     timerRunning (state w') = false /\
     timerRef (env w') = false /\
     alerts (env w') = S (alerts (env w)) /\
     toasts (env w') = S (toasts (env w))) /\
    (timeRemaining (state w) <> 1 ->
     timerRunning (state w') = true /\
     timerRef (env w') = true /\
     alerts (env w') = alerts (env w) /\
     toasts (env w') = toasts (env w)).
Proof.
  intros Hlive Hrun Hpos.
  unfold fire. simpl. rewrite Hlive. unfold onInterval.
  destruct (Z.leb_spec (timeRemaining (state w)) 1) as [Hle|Hgt];
    eexists; (split; [reflexivity|]); simpl;
    match goal with
    | |- context [commit ?o ?n ?e] =>
        destruct (commit_alerts o n e) as (Ha & Ht & _);
        rewrite Ha, Ht; unfold commit; rewrite (timerEffect_timerRef o n)
    end; simpl; rewrite Hrun; simpl.
  - repeat split; auto; lia.
  - assert (Hne : (timeRemaining (state w) =? timeRemaining (state w) - 1)
                  = false) by (apply Z.eqb_neq; lia).
    assert (Hp : (0 <? timeRemaining (state w) - 1) = true)
      by (apply Z.ltb_lt; lia).
    rewrite Hne, Hp. repeat split; auto; lia.
Qed.

(** A running countdown of [n + 1] seconds takes [n + 1] callbacks and
    raises the alert once, with the last of them. *)
Lemma ticks_to_zero n : forall w,
  timerRef (env w) = true ->
  timerRunning (state w) = true ->
  timeRemaining (state w) = Z.of_nat (S n) ->
  exists w',
    run P (repeat Tick (S n)) w = Some w' /\
    timeRemaining (state w') = 0 /\
    timerDuration (state w') = timerDuration (state w) /\
    timerRunning (state w') = false /\
    timerRef (env w') = false /\
    alerts (env w') = S (alerts (env w)) /\
    toasts (env w') = S (toasts (env w)).
Proof.
  induction n as [|n IH]; intros w Hlive Hrun Ht.
  - destruct (@tick_step w Hlive Hrun ltac:(lia))
      as (w' & Hf & Ht' & Hd & Hlast & _).
    exists w'. change (repeat Tick 1) with [Tick]. rewrite run_cons, Hf.
    destruct (Hlast ltac:(lia)) as (? & ? & ? & ?).
    repeat split; auto; lia.
  - destruct (@tick_step w Hlive Hrun ltac:(lia))
      as (w1 & Hf & Ht1 & Hd1 & _ & Hmid).
    destruct (Hmid ltac:(lia)) as (Hrun1 & Hlive1 & Ha1 & Hto1).
    destruct (IH w1 Hlive1 Hrun1 ltac:(lia))
      as (w' & Hr & Ht' & Hd' & Hrun' & Hlive' & Ha' & Hto').
    exists w'. change (repeat Tick (S (S n))) with (Tick :: repeat Tick (S n)).
    rewrite run_cons, Hf.
    repeat split; auto; congruence.
Qed.

End Timer.

Lemma running_world_reachable : reachable demo_pool running_world.
Proof.
  eapply reachable_run with (evs := [NextWord false; Start]);
    [apply fresh_world_reachable | vm_compute; reflexivity].
Qed.

(** C6.  In every state reachable from a mount by any sequence of events
    (next word, start, stop, restart, a duration chosen in the settings,
    tick, reset, press, release), the time remaining lies between 0 and the
    duration, and the interval callback can fire only while the timer is
    running with time remaining above 0. *)
Theorem time_remaining_within_duration P w :
  reachable P w ->
  0 <= timeRemaining (state w) <= timerDuration (state w) /\
  (forall w', fire P Tick w = Some w' ->
     timerRunning (state w) = true /\ 0 < timeRemaining (state w)).
Proof.
  intros Hreach. destruct (reachable_timer_inv Hreach) as [[Hrange _] Href].
  split; [exact Hrange|].
  intros w' Hf. unfold fire in Hf. simpl in Hf.
  destruct (timerRef (env w)) eqn:Hlive; [|discriminate].
  symmetry in Href. apply andb_prop in Href. destruct Href as [Hrun Hpos].
  split; [exact Hrun | now apply Z.ltb_lt].
Qed.

Lemma time_remaining_within_duration_witness :
  reachable demo_pool running_world /\
  (0 <= timeRemaining (state running_world)
     <= timerDuration (state running_world) /\
   (forall w', fire demo_pool Tick running_world = Some w' ->
      timerRunning (state running_world) = true /\
      0 < timeRemaining (state running_world))).
Proof.
  split; [apply running_world_reachable|].
  apply (@time_remaining_within_duration demo_pool running_world).
  apply running_world_reachable.
Defined.

(** The countdown where the updater runs once per callback, as in a
    production build.  In a running state (the timer running with time
    remaining and its interval live) a tick takes exactly one second off the
    time remaining.  When that leaves 0 the timer stops, no interval stays
    live, and the alert (sound and vibration, and the toast) is raised once;
    on every other tick the timer keeps running and no alert is raised.  In
    particular, from a reachable state with a word selected and the full
    duration remaining, start followed by as many ticks as the duration has
    seconds ends with no time remaining, the timer stopped, exactly one
    alert raised, and no further tick possible.  The development build is
    [expiry_alerts_twice_in_development] below. *)
Theorem tick_counts_down_and_alerts_once P :
  (forall w,
     timerRunning (state w) = true ->
     0 < timeRemaining (state w) ->
     timerRef (env w) = true ->
     exists w',
       fire P Tick w = Some w' /\
       timeRemaining (state w') = timeRemaining (state w) - 1 /\
       (timeRemaining (state w') = 0 ->
        timerRunning (state w') = false /\
        timerRef (env w') = false /\
        alerts (env w') = S (alerts (env w)) /\
        toasts (env w') = S (toasts (env w))) /\
       (timeRemaining (state w') <> 0 ->
        timerRunning (state w') = true /\
        timerRef (env w') = true /\
        alerts (env w') = alerts (env w) /\
        toasts (env w') = toasts (env w))) /\
  (forall w,
     reachable P w ->
     truthy (currentWord (state w)) = true ->
     timeRemaining (state w) = timerDuration (state w) ->
     exists w',
       run P (Start :: repeat Tick (Z.to_nat (timerDuration (state w)))) w
       = Some w' /\
       timeRemaining (state w') = 0 /\
       timerRunning (state w') = false /\
       alerts (env w') = S (alerts (env w)) /\
       toasts (env w') = S (toasts (env w)) /\
       fire P Tick w' = None).
Proof.
  split.
  - intros w Hrun Hpos Hlive.
    destruct (@tick_step P w Hlive Hrun Hpos)
      as (w' & Hf & Ht & _ & Hlast & Hmid).
    exists w'. split; [exact Hf|]. split; [exact Ht|].
    split; intros H; [apply Hlast | apply Hmid]; lia.
  - intros w Hreach Hword Hfull.
    pose proof (reachable_timer_inv Hreach) as Hinv.
    destruct (fire P Start w) as [w1|] eqn:Hstart.
    2:{ unfold fire in Hstart. simpl in Hstart. discriminate. }
    assert (Hinv1 : timer_inv w1) by (eapply fire_timer_inv; eauto).
    assert (Hs1 : state w1 = setTimerRunning true (state w) /\
                  alerts (env w1) = alerts (env w) /\
                  toasts (env w1) = toasts (env w)).
    { unfold fire in Hstart. simpl in Hstart. unfold startTimer in Hstart.
      rewrite Hword in Hstart. inversion Hstart; subst; simpl.
      destruct (commit_alerts (state w) (setTimerRunning true (state w))
                              (env w)) as (? & ? & _). auto. }
    destruct Hs1 as (Hs1 & Ha1 & Hto1).
    destruct Hinv as [[Hrange Hdur] _].
    destruct Hinv1 as [_ Hlive1]. rewrite Hs1 in Hlive1. simpl in Hlive1.
    assert (Hp : (0 <? timeRemaining (state w)) = true)
      by (apply Z.ltb_lt; lia).
    rewrite Hp in Hlive1.
    destruct (Z.to_nat (timerDuration (state w))) as [|n] eqn:Hn; [lia|].
    destruct (@ticks_to_zero P n w1 Hlive1)
      as (w' & Hr & Ht' & _ & Hrun' & Hlive' & Ha' & Hto').
    { rewrite Hs1. reflexivity. }
    { rewrite Hs1. simpl. lia. }
    exists w'. rewrite run_cons, Hstart.
    repeat split; try congruence.
    unfold fire. simpl. rewrite Hlive'. reflexivity.
Qed.

Lemma tick_counts_down_and_alerts_once_witness :
  (timerRunning (state running_world) = true /\
   0 < timeRemaining (state running_world) /\
   timerRef (env running_world) = true /\
   exists w',
     fire demo_pool Tick running_world = Some w' /\
     timeRemaining (state w') = 59) /\
  (reachable demo_pool running_world /\
   truthy (currentWord (state running_world)) = true /\
   timeRemaining (state running_world) = timerDuration (state running_world) /\
   exists w',
     run demo_pool (Start :: repeat Tick 60) running_world = Some w' /\
     timeRemaining (state w') = 0 /\
     alerts (env w') = 1%nat).
Proof.
  pose proof (@tick_counts_down_and_alerts_once demo_pool) as [Htick Hall].
  split.
  - split; [reflexivity|]. split; [reflexivity|]. split; [reflexivity|].
    destruct (Htick running_world eq_refl eq_refl eq_refl)
      as (w' & Hf & Ht & _).
    exists w'. split; [exact Hf | exact Ht].
  - split; [apply running_world_reachable|].
    split; [reflexivity|]. split; [reflexivity|].
    destruct (Hall running_world running_world_reachable eq_refl eq_refl)
      as (w' & Hr & Ht & _ & Ha & _).
    exists w'. split; [exact Hr|]. split; [exact Ht | exact Ha].
Defined.

(** C8.  In every state, and so in every state with a word selected,
    whatever the timer was doing, restart sets the time remaining to the
    current duration and the timer running, and changes no other part of the
    session state. *)
Theorem restart_resets_and_runs P w :
  exists w',
    fire P Restart w = Some w' /\
    timeRemaining (state w') = timerDuration (state w) /\
    timerRunning (state w') = true /\
    timerDuration (state w') = timerDuration (state w) /\
    usedWords (state w') = usedWords (state w) /\
    currentCategory (state w') = currentCategory (state w) /\
    currentWord (state w') = currentWord (state w) /\
    isAllPlay (state w') = isAllPlay (state w) /\
    wordRevealed (state w') = wordRevealed (state w).
Proof.
  eexists. split; [reflexivity|]. simpl. repeat split.
Qed.

(** ** The selector *)

Lemma jsstring_eqb_eq a b : jsstring_eqb a b = true <-> a = b.
Proof.
  revert b. induction a as [|x a IH]; destruct b as [|y b]; simpl;
    try (split; [discriminate | congruence]); [tauto|].
  rewrite andb_true_iff, N.eqb_eq, IH. split.
  - intros [-> ->]. reflexivity.
  - intros H. inversion H. auto.
Qed.

Lemma includes_In arr x : includes arr x = true <-> In x arr.
Proof.
  unfold includes. rewrite existsb_exists. split.
  - intros (y & Hy & Heq). apply jsstring_eqb_eq in Heq. now subst.
  - intros H. exists x. split; [exact H | now apply jsstring_eqb_eq].
Qed.

Section Selector.

Variable P : WordCategories.

Lemma push_words L k d ws : forall acc,
  fold_left
    (fun available word =>
       if negb (includes L word)
       then available ++ [mkAvailableWord k word (cat_color d)]
       else available) ws acc
  = acc ++ map (fun w => mkAvailableWord k w (cat_color d))
               (filter (fun w => negb (includes L w)) ws).
Proof.
  induction ws as [|w ws IH]; intros acc; simpl.
  - now rewrite app_nil_r.
  - rewrite IH. destruct (negb (includes L w)); simpl; [|reflexivity].
    now rewrite <- app_assoc.
Qed.

Lemma push_categories L cats : forall acc,
  fold_left
    (fun available '(categoryKey, categoryData) =>
       fold_left
         (fun available word =>
            if negb (includes L word)
            then available ++
                 [mkAvailableWord categoryKey word (cat_color categoryData)]
            else available)
         (words categoryData) available)
    cats acc
  = acc ++ flat_map (available_in L) cats.
Proof.
  induction cats as [|[k d] cats IH]; intros acc; simpl.
  - now rewrite app_nil_r.
  - rewrite IH, push_words. unfold available_in at 2. simpl.
    now rewrite <- app_assoc.
Qed.

Lemma getAvailableWords_flat s :
  getAvailableWords P s = flat_map (available_in (usedWords s)) P.
Proof. unfold getAvailableWords. now rewrite push_categories. Qed.

End Selector.

(** The array the source builds lists, in the same order, the pairs the
    specification calls eligible. *)
Lemma getAvailableWords_eligible P s :
  map (fun a => (category a, word a)) (getAvailableWords P s)
  = eligible P (usedWords s).
Proof.
  rewrite getAvailableWords_flat. unfold eligible, pairs.
  induction P as [|[k d] P IH]; simpl; [reflexivity|].
  rewrite map_app, filter_app, IH. f_equal.
  unfold available_in. simpl. rewrite map_map. simpl.
  induction (words d) as [|w ws IHw]; simpl; [reflexivity|].
  destruct (negb (includes (usedWords s) w)); simpl; now rewrite IHw.
Qed.

Lemma eligible_nil P s :
  eligible P (usedWords s) = [] <-> getAvailableWords P s = [].
Proof.
  rewrite <- getAvailableWords_eligible.
  destruct (getAvailableWords P s); simpl; split; congruence.
Qed.

Lemma In_pairs P c w :
  In (c, w) (pairs P) <-> exists d, In (c, d) P /\ In w (words d).
Proof.
  unfold pairs. rewrite in_flat_map. split.
  - intros ([k d] & Hin & Hw). simpl in Hw. apply in_map_iff in Hw.
    destruct Hw as (w0 & Heq & Hw0). inversion Heq; subst. eauto.
  - intros (d & Hin & Hw). exists (c, d). split; [exact Hin|].
    simpl. apply in_map_iff. eauto.
Qed.

Lemma In_eligible P L c w :
  In (c, w) (eligible P L) <-> In (c, w) (pairs P) /\ ~ In w L.
Proof.
  unfold eligible. rewrite filter_In. simpl.
  rewrite negb_true_iff, <- not_true_iff_false, includes_In. tauto.
Qed.

(** *** The random index and the All-Play draw *)

Open Scope N_scope.

(** Rounding to 53 bits adds less than [n] to a product by [n]. *)
Lemma round53_upper p n :
  0 < n -> p < 2 ^ 53 * n -> round53 p < p + n.
Proof.
  intros Hn Hp. unfold round53.
  destruct (N.size p - 53 =? 0) eqn:Hsh; [lia|].
  apply N.eqb_neq in Hsh.
  set (sh := N.size p - 53) in *.
  assert (Hp0 : p <> 0) by (intros ->; simpl in sh; lia).
  assert (Hsize : N.size p = sh + 53) by lia.
  assert (Hhalf2 : 2 ^ sh = 2 * 2 ^ (sh - 1)).
  { replace sh with (N.succ (sh - 1)) at 1 by lia. now rewrite N.pow_succ_r'. }
  assert (Hlow : 2 ^ (sh - 1) * 2 ^ 53 <= p).
  { rewrite <- N.pow_add_r.
    replace (sh - 1 + 53) with (N.log2 p).
    - apply N.log2_spec. lia.
    - rewrite N.size_log2 in Hsize by assumption. lia. }
  assert (Hhalf : 2 ^ (sh - 1) < n) by nia.
  rewrite N.shiftl_mul_pow2, N.shiftr_div_pow2.
  pose proof (N.Div0.div_mod p (2 ^ sh)) as Hdm.
  pose proof (N.mod_lt p (2 ^ sh) ltac:(lia)) as Hml.
  set (q := p / 2 ^ sh) in *. set (r := p mod 2 ^ sh) in *.
  set (half := 2 ^ (sh - 1)) in *.
  destruct (half <? r) eqn:H1.
  - apply N.ltb_lt in H1. nia.
  - destruct ((r =? half) && N.odd q) eqn:H2.
    + apply andb_prop in H2. destruct H2 as [H2 _]. apply N.eqb_eq in H2. nia.
    + nia.
Qed.

(** [Math.floor(x * n)] is an index into an array of length [n], for every
    double [x] in the range of [Math.random]. *)
Lemma floor_fmul_lt (x : dyadic) (n : N) :
  is_unit_double x = true -> 0 < n -> Math_floor (fmul x n) < n.
Proof.
  unfold is_unit_double. intros Hx Hn.
  apply andb_prop in Hx. destruct Hx as [Hx H3].
  apply andb_prop in Hx. destruct Hx as [H1 H2].
  apply N.ltb_lt in H1, H3.
  unfold Math_floor, fmul. simpl. rewrite N.shiftr_div_pow2.
  apply N.Div0.div_lt_upper_bound.
  assert (Hr : round53 (mant x * n) < mant x * n + n)
    by (apply round53_upper; [assumption | nia]).
  nia.
Qed.

(** A double in the range of [Math.random] is below the double [0.2] of the
    source exactly when it is below one fifth. *)
Lemma below_all_play_probability (x : dyadic) :
  is_unit_double x = true ->
  dyadic_ltb x ALL_PLAY_PROBABILITY = true <-> 5 * mant x < 2 ^ expo x.
Proof.
  unfold is_unit_double, dyadic_ltb, ALL_PLAY_PROBABILITY.
  destruct x as [m e]. simpl mant. simpl expo. intros Hx.
  apply andb_prop in Hx. destruct Hx as [Hx _].
  apply andb_prop in Hx. destruct Hx as [Hm _].
  apply N.ltb_lt in Hm. rewrite N.ltb_lt.
  change (2 ^ 53) with 9007199254740992 in Hm.
  change (2 ^ 54) with 18014398509481984.
  destruct (N.le_gt_cases 56 e) as [Hbig | Hsmall].
  - assert (Hle : 2 ^ 56 <= 2 ^ e) by (apply N.pow_le_mono_r; lia).
    change (2 ^ 56) with 72057594037927936 in Hle.
    split; intros _; nia.
  - assert (Hsplit : 2 ^ e * 2 ^ (55 - e) = 36028797018963968).
    { rewrite <- N.pow_add_r. replace (e + (55 - e)) with 55 by lia.
      reflexivity. }
    assert (Hd : 0 < 2 ^ (55 - e))
      by (apply N.neq_0_lt_0, N.pow_nonzero; lia).
    set (E := 2 ^ e) in *. set (d := 2 ^ (55 - e)) in *.
    rewrite (N.mul_lt_mono_pos_r d (m * 18014398509481984)) by assumption.
    rewrite (N.mul_lt_mono_pos_r d (5 * m)) by assumption.
    replace (3602879701896397 * E * d)
      with (3602879701896397 * 36028797018963968) by (rewrite <- Hsplit; lia).
    rewrite Hsplit.
    lia.
Qed.

Close Scope N_scope.

(** *** What a selection attempt does *)

Section Selection.

Variable P : WordCategories.

Lemma drawn_index_lt s e :
  getAvailableWords P s <> [] ->
  (drawn_index P s e < length (getAvailableWords P s))%nat.
Proof.
  intros Hne. unfold drawn_index.
  assert (Hpos : (0 < N.of_nat (length (getAvailableWords P s)))%N).
  { destruct (getAvailableWords P s); [congruence | simpl; lia]. }
  pose proof (floor_fmul_lt (draws (random e) (cursor (random e)))
                (rn_range _) Hpos).
  lia.
Qed.

Lemma selectRandomWord_exhausted confirm s e :
  getAvailableWords P s = [] ->
  selectRandomWord P confirm s e
  = Return (if confirm then resetGame s e else (s, e)).
Proof.
  intros H. unfold selectRandomWord. rewrite H. simpl.
  now destruct confirm.
Qed.

Lemma selectRandomWord_selected confirm s e :
  getAvailableWords P s <> [] ->
  exists selected,
    nth_error (getAvailableWords P s) (drawn_index P s e) = Some selected /\
    selectRandomWord P confirm s e
    = Return
        (s |> setCurrentCategory (Some (category selected))
           |> setCurrentWord (Some (word selected))
           |> setIsAllPlay
                (if jsstring_eqb (category selected) (lit "random")
                 then true
                 else dyadic_ltb (draws (random e) (S (cursor (random e))))
                                 ALL_PLAY_PROBABILITY)
           |> setUsedWords (usedWords s ++ [word selected])
           |> setTimeRemaining (timerDuration s)
           |> setTimerRunning false
           |> setWordRevealed false,
         after_draws
           (if jsstring_eqb (category selected) (lit "random")
            then 1 else 2) e).
Proof.
  intros Hne.
  destruct (nth_error (getAvailableWords P s) (drawn_index P s e))
    as [selected|] eqn:Hnth.
  2:{ apply nth_error_None in Hnth.
      pose proof (drawn_index_lt s e Hne). lia. }
  exists selected. split; [reflexivity|].
  unfold selectRandomWord.
  destruct (length (getAvailableWords P s) =? 0)%nat eqn:Hlen.
  { apply Nat.eqb_eq in Hlen.
    destruct (getAvailableWords P s); [congruence | discriminate]. }
  unfold nextRandom, Math_random. simpl.
  unfold drawn_index in Hnth. rewrite Hnth.
  destruct (jsstring_eqb (category selected) (lit "random")); reflexivity.
Qed.

End Selection.

Lemma commit_localStorage old new e :
  localStorage (commit old new e) =
  if (usedWordsRef old =? usedWordsRef new)%nat then localStorage e
  else Some (JSON_stringify (usedWords new)).
Proof.
  unfold commit, timerEffect, saveEffect.
  destruct (usedWordsRef old =? usedWordsRef new)%nat; simpl;
    repeat match goal with
           | |- context [if ?b then _ else _] => destruct b; simpl
           end; reflexivity.
Qed.

(** A selection attempt over a pool with eligible words, as one turn of the
    event loop. *)
Lemma fire_NextWord_selected P confirm w :
  getAvailableWords P (state w) <> [] ->
  exists selected w',
    nth_error (getAvailableWords P (state w))
              (drawn_index P (state w) (env w)) = Some selected /\
    fire P (NextWord confirm) w = Some w' /\
    state w' =
      (state w |> setCurrentCategory (Some (category selected))
               |> setCurrentWord (Some (word selected))
               |> setIsAllPlay
                    (if jsstring_eqb (category selected) (lit "random")
                     then true
                     else dyadic_ltb
                            (draws (random (env w))
                                   (S (cursor (random (env w)))))
                            ALL_PLAY_PROBABILITY)
               |> setUsedWords (usedWords (state w) ++ [word selected])
               |> setTimeRemaining (timerDuration (state w))
               |> setTimerRunning false
               |> setWordRevealed false) /\
    random (env w') =
      mkRng (draws (random (env w)))
            ((if jsstring_eqb (category selected) (lit "random")
              then 1 else 2) + cursor (random (env w))) /\
    localStorage (env w') = Some (JSON_stringify (usedWords (state w'))) /\
    alerts (env w') = alerts (env w).
Proof.
  intros Hne.
  destruct (selectRandomWord_selected P confirm (state w) (env w) Hne)
    as (selected & Hnth & Hsel).
  exists selected. eexists. split; [exact Hnth|].
  unfold fire. simpl enabled. cbv iota. simpl handle. rewrite Hsel.
  split; [reflexivity|]. simpl state. split; [reflexivity|].
  split; [|split].
  - simpl env.
    match goal with
    | |- random (commit ?o ?n ?e) = _ =>
        destruct (commit_alerts o n e) as (_ & _ & ->)
    end. reflexivity.
  - simpl env. rewrite commit_localStorage. simpl usedWordsRef.
    destruct (Nat.eqb_spec (usedWordsRef (state w)) (S (usedWordsRef (state w))));
      [lia | reflexivity].
  - simpl env.
    match goal with
    | |- alerts (commit ?o ?n ?e) = _ =>
        destruct (commit_alerts o n e) as (-> & _ & _)
    end. reflexivity.
Qed.

(** C3.  The array of available words lists exactly the (category, word)
    pairs of the pool whose word is not in the ledger.  When that set is not
    empty a selection attempt selects one of its pairs; the attempt takes the
    branch for an exhausted pool, where nothing is selected and no random
    number is drawn, if and only if the set is empty. *)
Theorem selector_draws_from_eligible P w confirm :
  let L := usedWords (state w) in
  map (fun a => (category a, word a)) (getAvailableWords P (state w))
  = eligible P L /\
  (forall c wd,
     In (c, wd) (eligible P L) <-> In (c, wd) (pairs P) /\ ~ In wd L) /\
  (eligible P L <> [] ->
   exists c wd w',
     In (c, wd) (eligible P L) /\
     fire P (NextWord confirm) w = Some w' /\
     currentCategory (state w') = Some c /\
     currentWord (state w') = Some wd) /\
  (selectRandomWord P confirm (state w) (env w)
   = Return (if confirm then resetGame (state w) (env w)
             else (state w, env w))
   <-> eligible P L = []).
Proof.
  intros L. split; [apply getAvailableWords_eligible|].
  split; [intros c wd; apply In_eligible|].
  split.
  - intros Hne.
    assert (Hav : getAvailableWords P (state w) <> [])
      by (intros H; apply Hne; now apply eligible_nil).
    destruct (fire_NextWord_selected P confirm w Hav)
      as (selected & w' & Hnth & Hf & Hs & _).
    exists (category selected), (word selected), w'.
    split; [|split; [exact Hf | rewrite Hs; split; reflexivity]].
    unfold L. rewrite <- getAvailableWords_eligible.
    apply nth_error_In in Hnth.
    apply (in_map (fun a => (category a, word a))) in Hnth. exact Hnth.
  - split.
    + intros Hres.
      destruct (getAvailableWords P (state w)) as [|a l] eqn:Hav;
        [now apply eligible_nil|].
      assert (Hne : getAvailableWords P (state w) <> []) by congruence.
      destruct (selectRandomWord_selected P confirm (state w) (env w) Hne)
        as (selected & _ & Hsel).
      rewrite Hsel in Hres. exfalso.
      apply (f_equal (fun r => match r with
                               | Return (_, e) => cursor (random e)
                               | Throw _ => O
                               end)) in Hres.
      revert Hres. destruct confirm; simpl;
        destruct (jsstring_eqb (category selected) (lit "random")); lia.
    + intros Hnil. apply selectRandomWord_exhausted. now apply eligible_nil.
Qed.

Lemma selector_draws_from_eligible_witness :
  eligible demo_pool (usedWords (state fresh_world)) <> [] /\
  exists c wd w',
    In (c, wd) (eligible demo_pool (usedWords (state fresh_world))) /\
    fire demo_pool (NextWord false) fresh_world = Some w' /\
    currentCategory (state w') = Some c /\
    currentWord (state w') = Some wd.
Proof.
  assert (Hne : eligible demo_pool (usedWords (state fresh_world)) <> [])
    by (vm_compute; discriminate).
  split; [exact Hne|].
  destruct (@selector_draws_from_eligible demo_pool fresh_world false)
    as (_ & _ & Hsel & _).
  exact (Hsel Hne).
Defined.

(** C4.  In a successful selection the first random number chooses the
    pair.  If the category of that pair is ["random"], All-Play is set and no
    further random number is drawn.  Otherwise exactly one more random number
    is drawn, and All-Play is set exactly when that number is below 0.20
    (being below the double [0.2] and being below one fifth are the same for
    a double). *)
Theorem all_play_decision P w confirm :
  getAvailableWords P (state w) <> [] ->
  exists selected w',
    nth_error (getAvailableWords P (state w))
              (drawn_index P (state w) (env w)) = Some selected /\
    fire P (NextWord confirm) w = Some w' /\
    currentCategory (state w') = Some (category selected) /\
    (category selected = lit "random" ->
     isAllPlay (state w') = true /\
     cursor (random (env w')) = S (cursor (random (env w)))) /\
    (category selected <> lit "random" ->
     let x := draws (random (env w)) (S (cursor (random (env w)))) in
     cursor (random (env w')) = S (S (cursor (random (env w)))) /\
     isAllPlay (state w') = dyadic_ltb x ALL_PLAY_PROBABILITY /\
     (isAllPlay (state w') = true <-> (5 * mant x < 2 ^ expo x)%N)).
Proof.
  intros Hne.
  destruct (fire_NextWord_selected P confirm w Hne)
    as (selected & w' & Hnth & Hf & Hs & Hrng & _).
  exists selected, w'. split; [exact Hnth|]. split; [exact Hf|].
  rewrite Hs, Hrng. simpl. split; [reflexivity|].
  destruct (jsstring_eqb (category selected) (lit "random")) eqn:Heq.
  - split; [auto | intros Hneq].
    apply jsstring_eqb_eq in Heq. contradiction.
  - split.
    + intros Hrand. apply jsstring_eqb_eq in Hrand. congruence.
    + intros _. split; [reflexivity|]. split; [reflexivity|].
      apply below_all_play_probability, rn_range.
Qed.

Lemma all_play_decision_witness :
  getAvailableWords demo_pool (state wink_left_world) <> [] /\
  exists selected w',
    fire demo_pool (NextWord false) wink_left_world = Some w' /\
    category selected = lit "random" /\
    isAllPlay (state w') = true /\
    cursor (random (env w')) = 5%nat.
Proof.
  assert (Hne : getAvailableWords demo_pool (state wink_left_world) <> [])
    by (vm_compute; discriminate).
  split; [exact Hne|].
  destruct (@all_play_decision demo_pool wink_left_world false Hne)
    as (selected & w' & Hnth & Hf & _ & Hforced & _).
  assert (Hcat : category selected = lit "random").
  { vm_compute in Hnth. inversion Hnth. reflexivity. }
  exists selected, w'. split; [exact Hf|]. split; [exact Hcat|].
  exact (Hforced Hcat).
Defined.

(** C5.  When the eligible set is not empty, one selection attempt sets the
    category and the word to the pair drawn, the time remaining to the
    current duration, the timer to not running and the word to not revealed,
    and appends the word drawn, and nothing else, to the ledger, which is
    saved to the storage in the same turn. *)
Theorem selection_updates_session P w confirm :
  eligible P (usedWords (state w)) <> [] ->
  exists selected w',
    In selected (getAvailableWords P (state w)) /\
    fire P (NextWord confirm) w = Some w' /\
    currentCategory (state w') = Some (category selected) /\
    currentWord (state w') = Some (word selected) /\
    timeRemaining (state w') = timerDuration (state w) /\
    timerDuration (state w') = timerDuration (state w) /\
    timerRunning (state w') = false /\
    wordRevealed (state w') = false /\
    usedWords (state w') = usedWords (state w) ++ [word selected] /\
    In (word selected) (usedWords (state w')) /\
    localStorage (env w') = Some (JSON_stringify (usedWords (state w'))).
Proof.
  intros Hel.
  assert (Hne : getAvailableWords P (state w) <> [])
    by (intros H; apply Hel; now apply eligible_nil).
  destruct (fire_NextWord_selected P confirm w Hne)
    as (selected & w' & Hnth & Hf & Hs & _ & Hsave & _).
  exists selected, w'.
  split; [eapply nth_error_In; eauto|]. split; [exact Hf|].
  rewrite Hsave, Hs. simpl. repeat split.
  apply in_or_app. right. now left.
Qed.

Lemma selection_updates_session_witness :
  eligible demo_pool (usedWords (state fresh_world)) <> [] /\
  exists selected w',
    fire demo_pool (NextWord false) fresh_world = Some w' /\
    currentWord (state w') = Some (word selected) /\
    timeRemaining (state w') = 60 /\
    usedWords (state w') = [word selected].
Proof.
  assert (Hne : eligible demo_pool (usedWords (state fresh_world)) <> [])
    by (vm_compute; discriminate).
  split; [exact Hne|].
  destruct (@selection_updates_session demo_pool fresh_world false Hne)
    as (selected & w' & _ & Hf & _ & Hw & Ht & _ & _ & _ & Hl & _).
  exists selected, w'. repeat split; assumption.
Defined.

(** C10.  When the eligible set is empty and the prompt to reset is
    declined, a selection attempt changes nothing: the session state, the
    ledger, the storage, the counters and the random source are all as
    before. *)
Theorem declined_reset_changes_nothing P w :
  eligible P (usedWords (state w)) = [] ->
  fire P (NextWord false) w = Some w.
Proof.
  intros Hnil. apply eligible_nil in Hnil.
  unfold fire. simpl.
  rewrite (selectRandomWord_exhausted P false (state w) (env w) Hnil).
  rewrite commit_same. now destruct w.
Qed.

Lemma declined_reset_changes_nothing_witness :
  eligible demo_pool (usedWords (state exhausted_world)) = [] /\
  fire demo_pool (NextWord false) exhausted_world = Some exhausted_world.
Proof.
  split; [reflexivity|].
  apply (@declined_reset_changes_nothing demo_pool exhausted_world).
  reflexivity.
Defined.

(** C9.  In every state, reset empties the ledger in memory and in the
    storage (the handler removes the item, the effect that follows stores the
    empty list, and either way a later load yields no words), clears the
    category and the word, sets All-Play, timer running and word revealed to
    false and the time remaining to the duration, and leaves the duration as
    it was. *)
Theorem reset_returns_to_idle P w :
  exists w',
    fire P Reset w = Some w' /\
    usedWords (state w') = [] /\
    localStorage (snd (resetGame (state w) (env w))) = None /\
    localStorage (env w') = Some (lit "[]") /\
    usedWords_init None = Return (JArray []) /\
    usedWords_init (localStorage (env w')) = Return (JArray []) /\
    currentCategory (state w') = None /\
    currentWord (state w') = None /\
    isAllPlay (state w') = false /\
    timerRunning (state w') = false /\
    wordRevealed (state w') = false /\
    timeRemaining (state w') = timerDuration (state w) /\
    timerDuration (state w') = timerDuration (state w).
Proof.
  eexists. split; [reflexivity|]. simpl state. simpl env.
  assert (Hsave : localStorage
                    (commit (state w) (fst (resetGame (state w) (env w)))
                            (snd (resetGame (state w) (env w))))
                  = Some (lit "[]")).
  { rewrite commit_localStorage. simpl.
    destruct (Nat.eqb_spec (usedWordsRef (state w)) (S (usedWordsRef (state w))));
      [lia | reflexivity]. }
  simpl in Hsave. rewrite Hsave. simpl. repeat split.
Qed.

(** C1, as the specification has it, fails: after the countdown has run out
    with "cat" selected, start turns Timer Running from false to true. *)
Lemma start_at_zero_counterexample :
  reachable demo_pool expired_world /\
  truthy (currentWord (state expired_world)) = true /\
  timeRemaining (state expired_world) = 0 /\
  timerRunning (state expired_world) = false /\
  exists w',
    fire demo_pool Start expired_world = Some w' /\
    timerRunning (state w') = true /\
    w' <> expired_world.
Proof.
  split; [apply expired_world_reachable|].
  repeat (split; [reflexivity|]).
  eexists. split; [reflexivity|]. split; [reflexivity|].
  intros H. apply (f_equal (fun w => timerRunning (state w))) in H.
  discriminate H.
Qed.

(** C1, amended.  In every state with a word selected and no time
    remaining, start sets Timer Running to true and leaves every other
    component of the session state as it was; the time remaining stays 0.
    Where no interval is live (as in every reachable state with no time
    remaining), nothing outside the session state changes either and no tick
    can follow: the countdown does not restart. *)
Theorem start_at_zero_only_sets_running P w :
  truthy (currentWord (state w)) = true ->
  timeRemaining (state w) = 0 ->
  exists w',
    fire P Start w = Some w' /\
    state w' = setTimerRunning true (state w) /\
    timeRemaining (state w') = 0 /\
    (timerRef (env w) = false ->
     env w' = env w /\ fire P Tick w' = None).
Proof.
  intros Hword Hzero.
  eexists. split.
  - unfold fire. simpl. unfold startTimer. rewrite Hword. reflexivity.
  - simpl. split; [reflexivity|]. split; [exact Hzero|].
    intros Hlive.
    assert (Henv : commit (state w) (setTimerRunning true (state w)) (env w)
                   = env w).
    { unfold commit, saveEffect, timerEffect. simpl.
      rewrite Nat.eqb_refl, Hzero, Hlive. simpl.
      destruct (Bool.eqb (timerRunning (state w)) true); simpl;
        rewrite ?Hlive; reflexivity. }
    split; [exact Henv|].
    unfold fire. simpl. rewrite Henv, Hlive. reflexivity.
Qed.

Lemma start_at_zero_only_sets_running_witness :
  truthy (currentWord (state expired_world)) = true /\
  timeRemaining (state expired_world) = 0 /\
  exists w',
    fire demo_pool Start expired_world = Some w' /\
    state w' = setTimerRunning true (state expired_world) /\
    timeRemaining (state w') = 0 /\
    (timerRef (env expired_world) = false ->
     env w' = env expired_world /\ fire demo_pool Tick w' = None).
Proof.
  split; [reflexivity|]. split; [reflexivity|].
  apply (@start_at_zero_only_sets_running demo_pool expired_world);
    reflexivity.
Defined.

(** ** The ledger in the storage *)

Open Scope N_scope.

Lemma hex_value_digit d : d < 16 -> hex_value (hex_digit d) = Some d.
Proof.
  intros Hd. unfold hex_value, hex_digit, is_digit.
  destruct (N.ltb_spec d 10).
  - replace ((48 <=? 48 + d) && (48 + d <=? 57)) with true
      by (symmetry; apply andb_true_intro; split; apply N.leb_le; lia).
    f_equal. lia.
  - replace ((48 <=? 87 + d) && (87 + d <=? 57)) with false
      by (symmetry; apply andb_false_intro2; apply N.leb_gt; lia).
    replace ((97 <=? 87 + d) && (87 + d <=? 102)) with true
      by (symmetry; apply andb_true_intro; split; apply N.leb_le; lia).
    f_equal. lia.
Qed.

Lemma hex4_unicode_escape c :
  c < 65536 ->
  hex4 (hex_digit (c / 4096 mod 16)) (hex_digit (c / 256 mod 16))
       (hex_digit (c / 16 mod 16)) (hex_digit (c mod 16)) = Some c.
Proof.
  intros Hc. unfold hex4.
  rewrite !hex_value_digit by (apply N.mod_lt; lia).
  f_equal.
  assert (E2 : c / 256 = c / 16 / 16)
    by (rewrite N.Div0.div_div; reflexivity).
  assert (E3 : c / 4096 = c / 256 / 16)
    by (rewrite N.Div0.div_div; reflexivity).
  pose proof (N.Div0.div_mod c 16) as H1.
  pose proof (N.Div0.div_mod (c / 16) 16) as H2.
  pose proof (N.Div0.div_mod (c / 256) 16) as H3.
  rewrite <- E2 in H2. rewrite <- E3 in H3.
  assert (H4 : c / 4096 < 16) by (apply N.Div0.div_lt_upper_bound; lia).
  rewrite (N.mod_small (c / 4096) 16) by assumption.
  lia.
Qed.

Lemma scan_string_verbatim c r :
  c <> 34 -> c <> 92 -> 32 <= c ->
  scan_string (c :: r) = cons_unit c (scan_string r).
Proof.
  intros H1 H2 H3. simpl.
  destruct (N.eqb_spec c 34); [contradiction|].
  destruct (N.eqb_spec c 92); [contradiction|].
  destruct (N.ltb_spec c 32); [lia | reflexivity].
Qed.

Lemma scan_string_unicode c r :
  c < 65536 ->
  scan_string (unicode_escape c ++ r) = cons_unit c (scan_string r).
Proof.
  intros Hc. unfold unicode_escape.
  change (scan_string
            ([92; 117; hex_digit (c / 4096 mod 16); hex_digit (c / 256 mod 16);
              hex_digit (c / 16 mod 16); hex_digit (c mod 16)] ++ r))
    with (match hex4 (hex_digit (c / 4096 mod 16)) (hex_digit (c / 256 mod 16))
                     (hex_digit (c / 16 mod 16)) (hex_digit (c mod 16)) with
          | Some u => cons_unit u (scan_string r)
          | None => None
          end).
  now rewrite hex4_unicode_escape.
Qed.

Lemma scan_string_quote_unit c r :
  scan_string (quote_unit c ++ r) = cons_unit c (scan_string r).
Proof.
  unfold quote_unit.
  destruct (N.eqb_spec c 8); [subst; reflexivity|].
  destruct (N.eqb_spec c 9); [subst; reflexivity|].
  destruct (N.eqb_spec c 10); [subst; reflexivity|].
  destruct (N.eqb_spec c 12); [subst; reflexivity|].
  destruct (N.eqb_spec c 13); [subst; reflexivity|].
  destruct (N.eqb_spec c 34); [subst; reflexivity|].
  destruct (N.eqb_spec c 92); [subst; reflexivity|].
  destruct (N.ltb_spec c 32).
  - apply scan_string_unicode. lia.
  - now apply scan_string_verbatim.
Qed.

Lemma surrogate_bounds c :
  is_leading_surrogate c = true \/ is_trailing_surrogate c = true ->
  c <> 34 /\ c <> 92 /\ 32 <= c /\ c < 65536.
Proof.
  unfold is_leading_surrogate, is_trailing_surrogate.
  intros [H|H]; apply andb_prop in H; destruct H as [H1 H2];
    apply N.leb_le in H1, H2; lia.
Qed.

(** Scanning what [QuoteJSONString] wrote gives the string back. *)
Lemma scan_string_quote_units n : forall s tl,
  (length s <= n)%nat ->
  scan_string (quote_units s ++ 34 :: tl) = Some (s, tl).
Proof.
  induction n as [|n IH]; intros s tl Hlen.
  - destruct s; [reflexivity | simpl in Hlen; lia].
  - destruct s as [|c rest]; [reflexivity|].
    simpl in Hlen.
    assert (Hrest : scan_string (quote_units rest ++ 34 :: tl) = Some (rest, tl))
      by (apply IH; lia).
    cbn [quote_units].
    destruct (is_leading_surrogate c) eqn:Hlead.
    + destruct (surrogate_bounds c (or_introl Hlead)) as (H1 & H2 & H3 & H4).
      destruct rest as [|d rest'].
      * rewrite scan_string_unicode by assumption. reflexivity.
      * destruct (is_trailing_surrogate d) eqn:Htrail.
        -- destruct (surrogate_bounds d (or_intror Htrail))
             as (D1 & D2 & D3 & D4).
           change ((c :: d :: quote_units rest') ++ 34 :: tl)
             with (c :: d :: (quote_units rest' ++ 34 :: tl)).
           rewrite scan_string_verbatim by assumption.
           rewrite scan_string_verbatim by assumption.
           rewrite IH by (simpl in Hlen; lia). reflexivity.
        -- rewrite <- app_assoc, scan_string_unicode by assumption.
           rewrite Hrest. reflexivity.
    + destruct (is_trailing_surrogate c) eqn:Htrail.
      * destruct (surrogate_bounds c (or_intror Htrail)) as (H1 & H2 & H3 & H4).
        rewrite <- app_assoc, scan_string_unicode by assumption.
        rewrite Hrest. reflexivity.
      * rewrite <- app_assoc, scan_string_quote_unit.
        rewrite Hrest. reflexivity.
Qed.

Lemma parse_value_quote f w rest :
  parse_value (S f) (quote w ++ rest) = Some (JString w, rest).
Proof.
  unfold quote. cbn [app]. rewrite <- app_assoc. cbn [app].
  cbn [parse_value skip_ws]. change (is_ws 34) with false. cbv iota.
  change (34 =? 34) with true. cbv iota.
  rewrite scan_string_quote_units with (n := length w) by lia. reflexivity.
Qed.

Lemma parse_elements_S f s :
  parse_elements (S f) s =
  match parse_value f s with
  | Some (v, r) =>
      match skip_ws r with
      | c :: r' =>
          if c =? 44 then
            match parse_elements f r' with
            | Some (vs, rest) => Some (v :: vs, rest)
            | None => None
            end
          else if c =? 93 then Some ([v], r')
          else None
      | [] => None
      end
  | None => None
  end.
Proof. reflexivity. Qed.

Lemma parse_elements_join ws : forall w f tl,
  (length (w :: ws) < f)%nat ->
  parse_elements f (join_quoted (w :: ws) ++ 93 :: tl)
  = Some (map JString (w :: ws), tl).
Proof.
  induction ws as [|w' ws IH]; intros w f tl Hf.
  - destruct f as [|[|f]]; simpl in Hf; try lia.
    rewrite parse_elements_S. cbn [join_quoted].
    rewrite parse_value_quote. reflexivity.
  - destruct f as [|[|f]]; simpl in Hf; try lia.
    rewrite parse_elements_S.
    change (join_quoted (w :: w' :: ws))
      with (quote w ++ 44 :: join_quoted (w' :: ws)).
    rewrite <- app_assoc. rewrite parse_value_quote.
    change ((44 :: join_quoted (w' :: ws)) ++ 93 :: tl)
      with (44 :: (join_quoted (w' :: ws) ++ 93 :: tl)).
    cbn [skip_ws]. change (is_ws 44) with false. cbv iota.
    change (44 =? 44) with true. cbv iota.
    rewrite IH by (simpl; lia). reflexivity.
Qed.

Lemma join_quoted_length ws :
  (length ws <= length (join_quoted ws))%nat.
Proof.
  induction ws as [|w [|w' ws] IH]; [simpl; lia | simpl; lia |].
  change (join_quoted (w :: w' :: ws))
    with (quote w ++ 44 :: join_quoted (w' :: ws)).
  rewrite length_app. simpl in *. lia.
Qed.

(** Parsing what [JSON.stringify] wrote for a list of words gives the list
    back. *)
Lemma JSON_parse_stringify ws :
  JSON_parse (JSON_stringify ws) = Return (JArray (map JString ws)).
Proof.
  unfold JSON_parse, JSON_stringify.
  destruct ws as [|w ws]; [reflexivity|].
  set (text := 91 :: join_quoted (w :: ws) ++ [93]).
  assert (Hlen : (length (w :: ws) < 2 * length text)%nat).
  { unfold text. pose proof (join_quoted_length (w :: ws)).
    cbn [length]. rewrite length_app. simpl in *. lia. }
  unfold text at 2.
  cbn [parse_value skip_ws]. change (is_ws 91) with false. cbv iota.
  change (91 =? 34) with false. change (91 =? 91) with true. cbv iota.
  assert (Hj : exists r, join_quoted (w :: ws) ++ [93] = 34 :: r).
  { destruct ws; unfold join_quoted; fold join_quoted; unfold quote;
      eexists; cbn [app]; reflexivity. }
  destruct Hj as [r' Hr']. rewrite Hr'.
  cbn [skip_ws]. change (is_ws 34) with false. cbv iota.
  change (34 =? 93) with false. cbv iota. rewrite <- Hr'.
  rewrite parse_elements_join by exact Hlen. reflexivity.
Qed.

Close Scope N_scope.

Lemma as_strings_map ws : as_strings (map JString ws) = Some ws.
Proof. induction ws as [|w ws IH]; simpl; [|rewrite IH]; reflexivity. Qed.


(** *** The fuel of the parser *)

Open Scope nat_scope.

Lemma skip_ws_length s : length (skip_ws s) <= length s.
Proof.
  induction s as [|c s IH]; simpl; [lia|].
  destruct (is_ws c); simpl; lia.
Qed.

Lemma skip_ws_cons s c r : skip_ws s = c :: r -> length r < length s.
Proof.
  intros H. pose proof (skip_ws_length s) as Hl. rewrite H in Hl.
  simpl in Hl. lia.
Qed.

Lemma cons_unit_Some c o x r :
  cons_unit c o = Some (x, r) -> exists x', o = Some (x', r).
Proof.
  destruct o as [[x' r']|]; simpl; [|discriminate].
  intros H. inversion H; subst. eauto.
Qed.

Lemma scan_string_length n : forall s x r,
  length s <= n -> scan_string s = Some (x, r) -> length r <= length s.
Proof.
  induction n as [|n IH]; intros s x r Hn Hs.
  - destruct s; [discriminate | simpl in Hn; lia].
  - destruct s as [|c s]; [discriminate|]. simpl in Hn.
    cbn [scan_string] in Hs.
    destruct (c =? 34)%N.
    { inversion Hs; subst. simpl. lia. }
    destruct (c =? 92)%N.
    + destruct s as [|e r1]; [discriminate|].
      destruct (e =? 117)%N.
      * destruct r1 as [|h1 [|h2 [|h3 [|h4 r2]]]]; try discriminate.
        destruct (hex4 h1 h2 h3 h4); [|discriminate].
        apply cons_unit_Some in Hs. destruct Hs as [x' Hs].
        apply IH in Hs; simpl in *; lia.
      * destruct (unescape e); [|discriminate].
        apply cons_unit_Some in Hs. destruct Hs as [x' Hs].
        apply IH in Hs; simpl in *; lia.
    + destruct (c <? 32)%N; [discriminate|].
      apply cons_unit_Some in Hs. destruct Hs as [x' Hs].
      apply IH in Hs; simpl in *; lia.
Qed.

Lemma span_digits_length s : length (snd (span_digits s)) <= length s.
Proof.
  induction s as [|c s IH]; simpl; [lia|].
  destruct (is_digit c); simpl; [|lia].
  destruct (span_digits s); simpl in *. lia.
Qed.

Lemma scan_sign_length s : length (snd (scan_sign s)) <= length s.
Proof.
  destruct s as [|c r]; simpl; [lia|]. destruct (c =? 45)%N; simpl; lia.
Qed.

Lemma scan_int_length s t r :
  scan_int s = Some (t, r) -> length r <= length s.
Proof.
  destruct s as [|c s]; simpl; [discriminate|]. intros H.
  destruct (c =? 48)%N; [inversion H; subst; lia|].
  destruct (is_digit c); [|discriminate].
  pose proof (span_digits_length s) as Hl.
  destruct (span_digits s) as [ds rest]. inversion H; subst. simpl in *. lia.
Qed.

Lemma scan_frac_length s t r :
  scan_frac s = Some (t, r) -> length r <= length s.
Proof.
  destruct s as [|c s]; simpl; intros H; [inversion H; subst; simpl; lia|].
  destruct (c =? 46)%N; [|inversion H; subst; simpl; lia].
  pose proof (span_digits_length s) as Hl.
  destruct (span_digits s) as [[|d ds] rest]; [discriminate|].
  inversion H; subst. simpl in *. lia.
Qed.

Lemma scan_exp_length s t r :
  scan_exp s = Some (t, r) -> length r <= length s.
Proof.
  destruct s as [|c s]; simpl; intros H; [inversion H; subst; simpl; lia|].
  destruct ((c =? 101)%N || (c =? 69)%N); [|inversion H; subst; simpl; lia].
  destruct s as [|d r0].
  - simpl in H. discriminate.
  - destruct ((d =? 43)%N || (d =? 45)%N).
    + pose proof (span_digits_length r0) as Hl.
      destruct (span_digits r0) as [[|x ds] rest]; [discriminate|].
      inversion H; subst. simpl in *. lia.
    + pose proof (span_digits_length (d :: r0)) as Hl.
      destruct (span_digits (d :: r0)) as [[|x ds] rest]; [discriminate|].
      inversion H; subst. simpl in *. lia.
Qed.

Lemma scan_number_length s t r :
  scan_number s = Some (t, r) -> length r <= length s.
Proof.
  unfold scan_number. intros H.
  pose proof (scan_sign_length s) as H0.
  destruct (scan_sign s) as [sign s1]. simpl in H0.
  destruct (scan_int s1) as [[ip s2]|] eqn:H1; [|discriminate].
  destruct (scan_frac s2) as [[fp s3]|] eqn:H2; [|discriminate].
  destruct (scan_exp s3) as [[ep s4]|] eqn:H3; [|discriminate].
  apply scan_int_length in H1. apply scan_frac_length in H2.
  apply scan_exp_length in H3. inversion H; subst. lia.
Qed.

Lemma strip_prefix_length p : forall s r,
  strip_prefix p s = Some r -> length r <= length s.
Proof.
  induction p as [|x p IH]; intros s r H; simpl in H.
  - inversion H; subst; lia.
  - destruct s as [|y s]; [discriminate|].
    destruct (x =? y)%N; [|discriminate]. apply IH in H. simpl. lia.
Qed.

(** What is left after a value, a list of elements or a list of members is
    no longer than the text they were read from. *)
Lemma parse_length f :
  (forall s v r, parse_value f s = Some (v, r) -> length r <= length s) /\
  (forall s v r, parse_elements f s = Some (v, r) -> length r <= length s) /\
  (forall s v r, parse_members f s = Some (v, r) -> length r <= length s).
Proof.
  induction f as [|f (IHv & IHe & IHm)];
    [repeat split; intros; discriminate|].
  split; [|split]; intros s v r H.
  - cbn [parse_value] in H.
    destruct (skip_ws s) as [|c r0] eqn:Hs; [discriminate|].
    apply skip_ws_cons in Hs.
    destruct (c =? 34)%N.
    { destruct (scan_string r0) as [[str rest]|] eqn:Hq; [|discriminate].
      apply scan_string_length with (n := length r0) in Hq; [|lia].
      inversion H; subst. lia. }
    destruct (c =? 91)%N.
    { destruct (skip_ws r0) as [|c' r'] eqn:Hs'; [discriminate|].
      apply skip_ws_cons in Hs'.
      destruct (c' =? 93)%N; [inversion H; subst; lia|].
      destruct (parse_elements f r0) as [[vs rest]|] eqn:He; [|discriminate].
      apply IHe in He. inversion H; subst. lia. }
    destruct (c =? 123)%N.
    { destruct (skip_ws r0) as [|c' r'] eqn:Hs'; [discriminate|].
      apply skip_ws_cons in Hs'.
      destruct (c' =? 125)%N; [inversion H; subst; lia|].
      destruct (parse_members f r0) as [[ms rest]|] eqn:He; [|discriminate].
      apply IHm in He. inversion H; subst. lia. }
    destruct (c =? 110)%N.
    { destruct (strip_prefix _ _) as [rest|] eqn:Hp; [|discriminate].
      apply strip_prefix_length in Hp. inversion H; subst. simpl in Hp. lia. }
    destruct (c =? 116)%N.
    { destruct (strip_prefix _ _) as [rest|] eqn:Hp; [|discriminate].
      apply strip_prefix_length in Hp. inversion H; subst. simpl in Hp. lia. }
    destruct (c =? 102)%N.
    { destruct (strip_prefix _ _) as [rest|] eqn:Hp; [|discriminate].
      apply strip_prefix_length in Hp. inversion H; subst. simpl in Hp. lia. }
    destruct (scan_number (c :: r0)) as [[tok rest]|] eqn:Hn; [|discriminate].
    apply scan_number_length in Hn. inversion H; subst. simpl in Hn. lia.
  - cbn [parse_elements] in H.
    destruct (parse_value f s) as [[v0 r0]|] eqn:Hv; [|discriminate].
    apply IHv in Hv.
    destruct (skip_ws r0) as [|c r1] eqn:Hs; [discriminate|].
    apply skip_ws_cons in Hs.
    destruct (c =? 44)%N.
    { destruct (parse_elements f r1) as [[vs rest]|] eqn:He; [|discriminate].
      apply IHe in He. inversion H; subst. lia. }
    destruct (c =? 93)%N; [|discriminate]. inversion H; subst. lia.
  - cbn [parse_members] in H.
    destruct (skip_ws s) as [|q r0] eqn:Hs; [discriminate|].
    apply skip_ws_cons in Hs.
    destruct (q =? 34)%N; [|discriminate].
    destruct (scan_string r0) as [[key r1]|] eqn:Hq; [|discriminate].
    apply scan_string_length with (n := length r0) in Hq; [|lia].
    destruct (skip_ws r1) as [|colon r2] eqn:Hs1; [discriminate|].
    apply skip_ws_cons in Hs1.
    destruct (colon =? 58)%N; [|discriminate].
    destruct (parse_value f r2) as [[v0 r3]|] eqn:Hv; [|discriminate].
    apply IHv in Hv.
    destruct (skip_ws r3) as [|c r4] eqn:Hs3; [discriminate|].
    apply skip_ws_cons in Hs3.
    destruct (c =? 44)%N.
    { destruct (parse_members f r4) as [[ms rest]|] eqn:He; [|discriminate].
      apply IHm in He. inversion H; subst. lia. }
    destruct (c =? 125)%N; [|discriminate]. inversion H; subst. lia.
Qed.

(** Beyond twice the length of the text, more fuel changes nothing. *)
Lemma parse_fuel f :
  (forall s f', 2 * length s < f -> 2 * length s < f' ->
                parse_value f s = parse_value f' s) /\
  (forall s f', 2 * length s + 1 < f -> 2 * length s + 1 < f' ->
                parse_elements f s = parse_elements f' s) /\
  (forall s f', 2 * length s + 1 < f -> 2 * length s + 1 < f' ->
                parse_members f s = parse_members f' s).
Proof.
  induction f as [|f (IHv & IHe & IHm)];
    [repeat split; intros; lia|].
  split; [|split]; intros s [|f'] Hf Hf'; try lia.
  - cbn [parse_value].
    destruct (skip_ws s) as [|c r0] eqn:Hs; [reflexivity|].
    apply skip_ws_cons in Hs.
    rewrite (IHe r0 f') by lia. rewrite (IHm r0 f') by lia. reflexivity.
  - cbn [parse_elements].
    rewrite <- (IHv s f') by lia.
    destruct (parse_value f s) as [[v0 r0]|] eqn:Hv; [|reflexivity].
    apply (proj1 (parse_length f)) in Hv.
    destruct (skip_ws r0) as [|c r1] eqn:Hs; [reflexivity|].
    apply skip_ws_cons in Hs.
    rewrite (IHe r1 f') by lia. reflexivity.
  - cbn [parse_members].
    destruct (skip_ws s) as [|q r0] eqn:Hs; [reflexivity|].
    apply skip_ws_cons in Hs.
    destruct (q =? 34)%N; [|reflexivity].
    destruct (scan_string r0) as [[key r1]|] eqn:Hq; [|reflexivity].
    apply scan_string_length with (n := length r0) in Hq; [|lia].
    destruct (skip_ws r1) as [|colon r2] eqn:Hs1; [reflexivity|].
    apply skip_ws_cons in Hs1.
    destruct (colon =? 58)%N; [|reflexivity].
    rewrite <- (IHv r2 f') by lia.
    destruct (parse_value f r2) as [[v0 r3]|] eqn:Hv; [|reflexivity].
    apply (proj1 (parse_length f)) in Hv.
    destruct (skip_ws r3) as [|c r4] eqn:Hs3; [reflexivity|].
    apply skip_ws_cons in Hs3.
    rewrite (IHm r4 f') by lia. reflexivity.
Qed.

Lemma parse_value_fuel text f :
  2 * length text < f ->
  parse_value f text = parse_value (S (2 * length text)) text.
Proof. intros Hf. apply (proj1 (parse_fuel f)); lia. Qed.

Close Scope nat_scope.

(** C2, as the specification has it, fails: over a stored value that is not
    JSON the initializer of the ledger throws instead of returning the empty
    list, and the component does not mount. *)
Lemma load_malformed_counterexample :
  usedWords_init (Some malformed_save) = Throw SyntaxError /\
  usedWords_init (Some malformed_save) <> Return (JArray []) /\
  mount (Some malformed_save) demo_rng = None.
Proof.
  split; [reflexivity|]. split; [|reflexivity].
  vm_compute. discriminate.
Qed.

(** C2, amended.  The load at startup returns the empty list when the key is
    missing or holds the empty string.  When the key holds what the component
    itself stores, the serialization of a list of words, it returns that
    list, and the component mounts with it as its ledger.  On every other
    value it does what [JSON.parse] does: when the value is not JSON it
    throws, the failure is not caught, and the component does not mount. *)
Theorem load_ledger_from_storage :
  usedWords_init None = Return (JArray []) /\
  usedWords_init (Some []) = Return (JArray []) /\
  (forall ws g,
     usedWords_init (Some (JSON_stringify ws))
     = Return (JArray (map JString ws)) /\
     exists w,
       mount (Some (JSON_stringify ws)) g = Some w /\
       usedWords (state w) = ws /\
       localStorage (env w) = Some (JSON_stringify ws)) /\
  (forall text,
     text <> [] ->
     usedWords_init (Some text) = JSON_parse text /\
     (JSON_parse text = Throw SyntaxError ->
      forall g, mount (Some text) g = None)).
Proof.
  split; [reflexivity|]. split; [reflexivity|]. split.
  - intros ws g.
    assert (Hload : usedWords_init (Some (JSON_stringify ws))
                    = Return (JArray (map JString ws)))
      by (unfold JSON_stringify at 1; simpl; apply JSON_parse_stringify).
    split; [exact Hload|].
    unfold mount. rewrite Hload. simpl. rewrite as_strings_map.
    eexists. split; [reflexivity|]. split; reflexivity.
  - intros text Hne.
    assert (Hload : usedWords_init (Some text) = JSON_parse text)
      by (destruct text; [congruence | reflexivity]).
    split; [exact Hload|].
    intros Hthrow g. unfold mount. now rewrite Hload, Hthrow.
Qed.

Lemma load_ledger_from_storage_witness :
  malformed_save <> [] /\
  JSON_parse malformed_save = Throw SyntaxError /\
  usedWords_init (Some malformed_save) = JSON_parse malformed_save /\
  mount (Some malformed_save) demo_rng = None.
Proof.
  assert (Hne : malformed_save <> []) by discriminate.
  split; [exact Hne|]. split; [reflexivity|].
  destruct load_ledger_from_storage as (_ & _ & _ & Hother).
  destruct (Hother malformed_save Hne) as [Hload Hmount].
  split; [exact Hload | apply Hmount; reflexivity].
Defined.

(* ================================================================= *)
(** * Further properties *)

(** ** More about the event loop *)

(** The two ways a selection attempt can go. *)
Lemma selectRandomWord_cases P confirm s e :
  (getAvailableWords P s = [] /\
   selectRandomWord P confirm s e
   = Return (if confirm then resetGame s e else (s, e))) \/
  (exists selected,
     In selected (getAvailableWords P s) /\
     selectRandomWord P confirm s e
     = Return
         (s |> setCurrentCategory (Some (category selected))
            |> setCurrentWord (Some (word selected))
            |> setIsAllPlay
                 (if jsstring_eqb (category selected) (lit "random")
                  then true
                  else dyadic_ltb (draws (random e) (S (cursor (random e))))
                                  ALL_PLAY_PROBABILITY)
            |> setUsedWords (usedWords s ++ [word selected])
            |> setTimeRemaining (timerDuration s)
            |> setTimerRunning false
            |> setWordRevealed false,
          after_draws
            (if jsstring_eqb (category selected) (lit "random")
             then 1 else 2) e)).
Proof.
  destruct (getAvailableWords P s) as [|a l] eqn:Hav.
  - left. split; [reflexivity|].
    now apply selectRandomWord_exhausted.
  - right.
    assert (Hne : getAvailableWords P s <> []) by congruence.
    destruct (selectRandomWord_selected P confirm s e Hne)
      as (selected & Hnth & Hsel).
    exists selected. rewrite <- Hav. split; [|exact Hsel].
    eapply nth_error_In; eauto.
Qed.

(** What a handler does to the ledger: it leaves the array, and the storage,
    alone, or it installs a new array. *)
Lemma handle_ledger P ev s e s' e' :
  handle P ev s e = Return (s', e') ->
  (usedWords s' = usedWords s /\ usedWordsRef s' = usedWordsRef s /\
   localStorage e' = localStorage e) \/
  usedWordsRef s' = S (usedWordsRef s).
Proof.
  intros H. destruct ev; simpl in H;
    try (inversion H; subst; left; repeat split; reflexivity).
  - destruct (selectRandomWord_cases P confirm s e)
      as [[_ Hex] | (selected & _ & Hsel)].
    + rewrite Hex in H. destruct confirm; inversion H; subst.
      * right. reflexivity.
      * left. repeat split.
    + rewrite Hsel in H. inversion H; subst. right. reflexivity.
  - unfold startTimer in H. destruct (truthy (currentWord s));
      inversion H; subst; left; repeat split.
  - inversion H; subst. right. reflexivity.
  - unfold onInterval in H. destruct (timeRemaining s <=? 1);
      inversion H; subst; left; repeat split.
Qed.

Lemma fire_storage P ev w w' :
  localStorage (env w) = Some (JSON_stringify (usedWords (state w))) ->
  fire P ev w = Some w' ->
  localStorage (env w') = Some (JSON_stringify (usedWords (state w'))).
Proof.
  intros Hinv Hf. unfold fire in Hf.
  destruct (enabled ev w); [|discriminate].
  destruct (handle P ev (state w) (env w)) as [[s' e']|] eqn:Hh;
    [|discriminate].
  inversion Hf; subst; clear Hf. simpl.
  rewrite commit_localStorage.
  destruct (handle_ledger P ev (state w) (env w) Hh)
    as [(Hu & Hr & Hl) | Hr].
  - rewrite Hr, Nat.eqb_refl. congruence.
  - rewrite Hr.
    destruct (Nat.eqb_spec (usedWordsRef (state w)) (S (usedWordsRef (state w))));
      [lia | reflexivity].
Qed.

Lemma reachable_storage P w :
  reachable P w ->
  localStorage (env w) = Some (JSON_stringify (usedWords (state w))).
Proof.
  induction 1 as [saved g w Hm | w ev w' _ IH Hf].
  - unfold mount in Hm.
    destruct (usedWords_init saved) as [v|]; [|discriminate].
    destruct (as_string_array v); [|discriminate].
    inversion Hm; subst. reflexivity.
  - eapply fire_storage; eauto.
Qed.

(** X1.  In every reachable state the storage holds the serialization of
    the ledger in memory, and loading it gives that ledger back: the effect
    that saves runs after every handler that replaces the ledger. *)
Theorem storage_mirrors_ledger P w :
  reachable P w ->
  localStorage (env w) = Some (JSON_stringify (usedWords (state w))) /\
  usedWords_init (localStorage (env w))
  = Return (JArray (map JString (usedWords (state w)))).
Proof.
  intros Hreach. rewrite (reachable_storage Hreach). split; [reflexivity|].
  unfold JSON_stringify at 1. simpl. apply JSON_parse_stringify.
Qed.

Lemma storage_mirrors_ledger_witness :
  reachable demo_pool expired_world /\
  localStorage (env expired_world)
  = Some (JSON_stringify (usedWords (state expired_world))) /\
  usedWords_init (localStorage (env expired_world))
  = Return (JArray (map JString (usedWords (state expired_world)))).
Proof.
  split; [apply expired_world_reachable|].
  apply (@storage_mirrors_ledger demo_pool expired_world).
  apply expired_world_reachable.
Defined.

(** X2.  The ledger survives a restart: mounting the component again over
    the storage a reachable state leaves gives the same ledger, with no word
    selected and the timer at rest. *)
Theorem remount_restores_ledger P w g :
  reachable P w ->
  exists w0,
    mount (localStorage (env w)) g = Some w0 /\
    reachable P w0 /\
    usedWords (state w0) = usedWords (state w) /\
    localStorage (env w0) = localStorage (env w) /\
    currentWord (state w0) = None /\
    timeRemaining (state w0) = TIMER_DURATION /\
    timerRunning (state w0) = false.
Proof.
  intros Hreach.
  pose proof (reachable_storage Hreach) as Hst.
  assert (Hm : mount (localStorage (env w)) g
               = Some (mkWorld (initialState (usedWords (state w)))
                               (mkEnv (localStorage (env w)) false 0 0 g
                                  |> setItem (JSON_stringify
                                                (usedWords (state w)))))).
  { unfold mount. rewrite Hst at 1.
    assert (Hload : usedWords_init
                      (Some (JSON_stringify (usedWords (state w))))
                    = Return (JArray (map JString (usedWords (state w)))))
      by (unfold JSON_stringify at 1; simpl; apply JSON_parse_stringify).
    rewrite Hload. simpl. now rewrite as_strings_map. }
  eexists. split; [exact Hm|].
  split; [eapply reachable_mount; exact Hm|].
  simpl. rewrite Hst. repeat split.
Qed.

Lemma remount_restores_ledger_witness :
  reachable demo_pool expired_world /\
  exists w0,
    mount (localStorage (env expired_world)) demo_rng = Some w0 /\
    usedWords (state w0) = usedWords (state expired_world).
Proof.
  split; [apply expired_world_reachable|].
  destruct (@remount_restores_ledger demo_pool expired_world demo_rng
              expired_world_reachable) as (w0 & Hm & _ & Hu & _).
  exists w0. split; [exact Hm | exact Hu].
Defined.

(** *** Words drawn and words left *)

Lemma In_getAvailableWords P s a :
  In a (getAvailableWords P s) ->
  ~ In (word a) (usedWords s) /\ In (word a) (pool_words P) /\
  In (category a, word a) (eligible P (usedWords s)).
Proof.
  intros Ha.
  assert (He : In (category a, word a) (eligible P (usedWords s))).
  { rewrite <- getAvailableWords_eligible.
    apply (in_map (fun a => (category a, word a))) in Ha. exact Ha. }
  split; [|split; [|exact He]].
  - apply In_eligible in He. tauto.
  - apply In_eligible in He. destruct He as [Hp _].
    apply In_pairs in Hp. destruct Hp as (d & Hd & Hw).
    unfold pool_words. apply in_flat_map. exists (category a, d). auto.
Qed.

Lemma includes_app L x w :
  includes (L ++ [x]) w = includes L w || jsstring_eqb w x.
Proof.
  unfold includes. rewrite existsb_app. simpl. now rewrite orb_false_r.
Qed.

Lemma filter_flat_map {A B} (f : B -> bool) (g : A -> list B) l :
  filter f (flat_map g l) = flat_map (fun x => filter f (g x)) l.
Proof.
  induction l as [|x l IH]; simpl; [reflexivity|].
  now rewrite filter_app, IH.
Qed.

(** Adding [x] to the ledger removes from the available words exactly the
    entries whose word is [x]. *)
Lemma available_after_add P L x :
  flat_map (available_in (L ++ [x])) P
  = filter (fun a => negb (jsstring_eqb (word a) x))
           (flat_map (available_in L) P).
Proof.
  rewrite filter_flat_map. apply flat_map_ext. intros [k d].
  unfold available_in. simpl.
  induction (words d) as [|w ws IH]; simpl; [reflexivity|].
  rewrite includes_app, negb_orb.
  destruct (negb (includes L w)); simpl; [|exact IH].
  destruct (negb (jsstring_eqb w x)); simpl; now rewrite IH.
Qed.

Lemma filter_length_lt {A} (f : A -> bool) l x :
  In x l -> f x = false -> (length (filter f l) < length l)%nat.
Proof.
  induction l as [|y l IH]; simpl; [tauto|].
  intros [->|Hin] Hf.
  - rewrite Hf. pose proof (filter_length_le f l). lia.
  - specialize (IH Hin Hf). destruct (f y); simpl; lia.
Qed.

Lemma jsstring_eqb_refl a : jsstring_eqb a a = true.
Proof. now apply jsstring_eqb_eq. Qed.

(** How one turn changes the ledger: not at all, to the empty ledger, or by
    one available word at its end. *)
Lemma fire_ledger_cases P ev w w' :
  fire P ev w = Some w' ->
  usedWords (state w') = usedWords (state w) \/
  usedWords (state w') = [] \/
  exists a, In a (getAvailableWords P (state w)) /\
            currentWord (state w') = Some (word a) /\
            usedWords (state w') = usedWords (state w) ++ [word a].
Proof.
  intros Hf. unfold fire in Hf.
  destruct (enabled ev w); [|discriminate].
  destruct (handle P ev (state w) (env w)) as [[s' e']|] eqn:Hh;
    [|discriminate].
  inversion Hf; subst; clear Hf. simpl.
  destruct ev; simpl in Hh;
    try (inversion Hh; subst; left; reflexivity).
  - destruct (selectRandomWord_cases P confirm (state w) (env w))
      as [[_ Hex] | (selected & Hin & Hsel)].
    + rewrite Hex in Hh. destruct confirm; inversion Hh; subst.
      * right. left. reflexivity.
      * left. reflexivity.
    + rewrite Hsel in Hh. inversion Hh; subst.
      right. right. exists selected. repeat split. exact Hin.
  - unfold startTimer in Hh. destruct (truthy (currentWord (state w)));
      inversion Hh; subst; left; reflexivity.
  - inversion Hh; subst. right. left. reflexivity.
  - unfold onInterval in Hh. destruct (timeRemaining (state w) <=? 1);
      inversion Hh; subst; left; reflexivity.
Qed.

(** X3.  Whatever the events, a ledger without repetitions stays without
    repetitions (no word is drawn twice between two resets), also when it
    holds words the pool does not have; every word of the ledger was in the
    ledger at the start or is a word of the pool; so a ledger of pool words
    stays a ledger of pool words. *)
Theorem ledger_never_repeats P evs : forall w w',
  run P evs w = Some w' ->
  (NoDup (usedWords (state w)) -> NoDup (usedWords (state w'))) /\
  (forall x, In x (usedWords (state w')) ->
             In x (usedWords (state w)) \/ In x (pool_words P)) /\
  (incl (usedWords (state w)) (pool_words P) ->
   incl (usedWords (state w')) (pool_words P)).
Proof.
  assert (Hstep : forall ev w w1,
            fire P ev w = Some w1 ->
            (NoDup (usedWords (state w)) -> NoDup (usedWords (state w1))) /\
            (forall x, In x (usedWords (state w1)) ->
                       In x (usedWords (state w)) \/ In x (pool_words P))).
  { intros ev w w1 Hf.
    destruct (fire_ledger_cases P ev w Hf)
      as [-> | [-> | (a & Ha & _ & ->)]].
    - split; [auto | intros x Hx; now left].
    - split; [intros _; constructor | intros x []].
    - apply In_getAvailableWords in Ha. destruct Ha as (Hnew & Hpool & _).
      split.
      + intros Hnd.
        apply NoDup_app; [exact Hnd | repeat constructor; simpl; tauto |].
        intros x Hx [<-|[]]. contradiction.
      + intros x Hx. apply in_app_or in Hx.
        destruct Hx as [Hx | [<-|[]]]; [now left | now right]. }
  induction evs as [|ev evs IH]; intros w w' Hrun.
  - inversion Hrun; subst. repeat split; auto.
  - rewrite run_cons in Hrun.
    destruct (fire P ev w) as [w1|] eqn:Hf; [|discriminate].
    destruct (Hstep ev w w1 Hf) as [Hnd1 Hin1].
    destruct (IH w1 w' Hrun) as (Hnd & Hin & _).
    assert (Hfrom : forall x, In x (usedWords (state w')) ->
                      In x (usedWords (state w)) \/ In x (pool_words P)).
    { intros x Hx. destruct (Hin x Hx) as [H1 | H1]; [auto | now right]. }
    split; [auto|]. split; [exact Hfrom|].
    intros Hincl x Hx. destruct (Hfrom x Hx) as [H1 | H1]; [auto | exact H1].
Qed.

Lemma stale_world_mounted :
  mount (Some (JSON_stringify [lit "zebra"])) demo_rng = Some stale_world.
Proof. vm_compute. reflexivity. Qed.

Lemma ledger_never_repeats_witness :
  NoDup (usedWords (state stale_world)) /\
  ~ incl (usedWords (state stale_world)) (pool_words demo_pool) /\
  exists w',
    run demo_pool [NextWord false; Start; NextWord false] stale_world
    = Some w' /\
    NoDup (usedWords (state w')).
Proof.
  assert (H1 : NoDup (usedWords (state stale_world)))
    by (repeat constructor; simpl; tauto).
  split; [exact H1|]. split.
  - intros H. specialize (H (lit "zebra") (or_introl eq_refl)).
    vm_compute in H. repeat (destruct H as [H|H]; [discriminate H|]).
    exact H.
  - destruct (run demo_pool [NextWord false; Start; NextWord false]
                  stale_world) as [w'|] eqn:Hrun;
      [|vm_compute in Hrun; discriminate Hrun].
    exists w'. split; [reflexivity|].
    exact (proj1 (@ledger_never_repeats demo_pool
                    [NextWord false; Start; NextWord false]
                    stale_world w' Hrun) H1).
Defined.

(** X4.  A word that is drawn was not in the ledger, is a word of the
    pool, is available no longer afterwards (under any category), and the
    number of available words has gone down. *)
Theorem drawn_word_leaves_the_pool P w confirm :
  getAvailableWords P (state w) <> [] ->
  exists wd w',
    fire P (NextWord confirm) w = Some w' /\
    currentWord (state w') = Some wd /\
    ~ In wd (usedWords (state w)) /\
    In wd (pool_words P) /\
    (forall a, In a (getAvailableWords P (state w')) -> word a <> wd) /\
    (availableCount P (state w') < availableCount P (state w))%nat.
Proof.
  intros Hne.
  destruct (fire_NextWord_selected P confirm w Hne)
    as (selected & w' & Hnth & Hf & Hs & _).
  apply nth_error_In in Hnth.
  destruct (In_getAvailableWords P (state w) selected Hnth)
    as (Hnew & Hpool & _).
  exists (word selected), w'. split; [exact Hf|].
  assert (Hav : getAvailableWords P (state w')
                = filter (fun a => negb (jsstring_eqb (word a) (word selected)))
                         (getAvailableWords P (state w))).
  { rewrite !getAvailableWords_flat, Hs. simpl. apply available_after_add. }
  rewrite Hs at 1. simpl. split; [reflexivity|].
  split; [exact Hnew|]. split; [exact Hpool|]. split.
  - intros a Ha. rewrite Hav in Ha. apply filter_In in Ha.
    destruct Ha as [_ Ha]. intros Heq. rewrite Heq, jsstring_eqb_refl in Ha.
    discriminate.
  - unfold availableCount. rewrite Hav.
    apply filter_length_lt with (x := selected); [exact Hnth|].
    now rewrite jsstring_eqb_refl.
Qed.

Lemma drawn_word_leaves_the_pool_witness :
  getAvailableWords demo_pool (state fresh_world) <> [] /\
  exists wd w',
    fire demo_pool (NextWord false) fresh_world = Some w' /\
    currentWord (state w') = Some wd /\
    (availableCount demo_pool (state w')
     < availableCount demo_pool (state fresh_world))%nat.
Proof.
  assert (Hne : getAvailableWords demo_pool (state fresh_world) <> [])
    by (vm_compute; discriminate).
  split; [exact Hne|].
  destruct (@drawn_word_leaves_the_pool demo_pool fresh_world false Hne)
    as (wd & w' & Hf & Hw & _ & _ & _ & Hlt).
  exists wd, w'. split; [exact Hf|]. split; [exact Hw | exact Hlt].
Defined.

Lemma fire_NextWord_exhausted P w :
  getAvailableWords P (state w) = [] ->
  fire P (NextWord false) w = Some w /\
  fire P (NextWord true) w = fire P Reset w.
Proof.
  intros Hnil. unfold fire. simpl.
  rewrite !(selectRandomWord_exhausted P _ (state w) (env w) Hnil).
  rewrite commit_same. split; [now destruct w | reflexivity].
Qed.

(** X5.  Asking for the next word as many times as there are available
    words (or more), declining the prompt, always succeeds and ends with no
    word available; the ledger only grows on the way. *)
Theorem pool_runs_out P n : forall w,
  (availableCount P (state w) <= n)%nat ->
  exists w',
    run P (repeat (NextWord false) n) w = Some w' /\
    getAvailableWords P (state w') = [] /\
    incl (usedWords (state w)) (usedWords (state w')).
Proof.
  induction n as [|n IH]; intros w Hle.
  - exists w. split; [reflexivity|]. split; [|apply incl_refl].
    unfold availableCount in Hle.
    destruct (getAvailableWords P (state w)); [reflexivity | simpl in Hle; lia].
  - change (repeat (NextWord false) (S n))
      with (NextWord false :: repeat (NextWord false) n).
    rewrite run_cons.
    destruct (getAvailableWords P (state w)) as [|a l] eqn:Hav.
    + destruct (fire_NextWord_exhausted P w Hav) as [-> _].
      apply IH. unfold availableCount. rewrite Hav. simpl. lia.
    + assert (Hne : getAvailableWords P (state w) <> []) by congruence.
      destruct (fire_NextWord_selected P false w Hne)
        as (selected & w1 & Hnth & Hf & Hs & _).
      apply nth_error_In in Hnth.
      assert (Hlt : (availableCount P (state w1)
                     < availableCount P (state w))%nat).
      { unfold availableCount.
        rewrite !getAvailableWords_flat, Hs. simpl.
        rewrite available_after_add, <- getAvailableWords_flat.
        apply filter_length_lt with (x := selected); [exact Hnth|].
        now rewrite jsstring_eqb_refl. }
      rewrite Hf. destruct (IH w1 ltac:(lia)) as (w' & Hr & Hnil & Hincl).
      exists w'. split; [exact Hr|]. split; [exact Hnil|].
      intros x Hx. apply Hincl. rewrite Hs. simpl.
      apply in_or_app. now left.
Qed.

Lemma pool_runs_out_witness :
  (availableCount demo_pool (state fresh_world) <= 3)%nat /\
  exists w',
    run demo_pool (repeat (NextWord false) 3) fresh_world = Some w' /\
    getAvailableWords demo_pool (state w') = [].
Proof.
  assert (H : (availableCount demo_pool (state fresh_world) <= 3)%nat)
    by (vm_compute; lia).
  split; [exact H|].
  destruct (@pool_runs_out demo_pool 3 fresh_world H) as (w' & Hr & Hnil & _).
  exists w'. split; assumption.
Defined.

Lemma totalWords_length P : totalWords P = length (pool_words P).
Proof.
  unfold totalWords, pool_words.
  assert (H : forall acc,
             fold_left (fun sum cat => (sum + length (words (snd cat)))%nat)
                       P acc
             = (acc + length (flat_map (fun entry => words (snd entry)) P))%nat).
  { induction P as [|[k d] P IH]; intros acc; simpl; [lia|].
    rewrite IH, length_app. simpl. lia. }
  rewrite H. reflexivity.
Qed.

Lemma availableCount_filter P s :
  availableCount P s
  = length (filter (fun w => negb (includes (usedWords s) w)) (pool_words P)).
Proof.
  unfold availableCount, pool_words.
  rewrite getAvailableWords_flat.
  induction P as [|[k d] P IH]; simpl; [reflexivity|].
  rewrite filter_app, !length_app, IH. f_equal.
  unfold available_in. simpl. now rewrite length_map.
Qed.

Lemma filter_partition_length {A} (f : A -> bool) l :
  (length (filter f l) + length (filter (fun x => negb (f x)) l))%nat
  = length l.
Proof.
  induction l as [|x l IH]; simpl; [reflexivity|].
  destruct (f x); simpl; lia.
Qed.

(** X6.  The two numbers of "Words Remaining": the available words and the
    pool words already in the ledger add up to the total, so the first never
    exceeds the second; and no word is available exactly when the eligible
    set is empty. *)
Theorem words_remaining_and_used P s :
  (availableCount P s
   + length (filter (includes (usedWords s)) (pool_words P)))%nat
  = totalWords P /\
  (availableCount P s <= totalWords P)%nat /\
  (availableCount P s = 0%nat <-> eligible P (usedWords s) = []).
Proof.
  rewrite totalWords_length, availableCount_filter.
  pose proof (filter_partition_length
                (fun w => negb (includes (usedWords s) w)) (pool_words P)) as H.
  assert (E : filter (fun x => negb (negb (includes (usedWords s) x)))
                     (pool_words P)
              = filter (includes (usedWords s)) (pool_words P)).
  { apply filter_ext. intros a. apply negb_involutive. }
  cbv beta in H. rewrite E in H. split; [exact H|]. split; [lia|].
  rewrite <- availableCount_filter. unfold availableCount.
  rewrite eligible_nil. destruct (getAvailableWords P s); simpl;
    split; congruence.
Qed.

(** X7.  After a reset every word of the pool is available again; and
    accepting the prompt of an exhausted pool is the same as a reset. *)
Theorem reset_makes_every_word_available P w :
  exists w',
    fire P Reset w = Some w' /\
    availableCount P (state w') = totalWords P /\
    (getAvailableWords P (state w) = [] ->
     fire P (NextWord true) w = Some w').
Proof.
  eexists. split; [reflexivity|]. simpl state. split.
  - rewrite availableCount_filter, totalWords_length. simpl usedWords.
    f_equal. induction (pool_words P) as [|x l IH]; [reflexivity|].
    simpl in *. now rewrite IH.
  - intros Hnil. now destruct (fire_NextWord_exhausted P w Hnil) as [_ ->].
Qed.

Lemma reset_makes_every_word_available_witness :
  getAvailableWords demo_pool (state exhausted_world) = [] /\
  exists w',
    fire demo_pool Reset exhausted_world = Some w' /\
    availableCount demo_pool (state w') = totalWords demo_pool /\
    fire demo_pool (NextWord true) exhausted_world = Some w'.
Proof.
  assert (Hnil : getAvailableWords demo_pool (state exhausted_world) = [])
    by reflexivity.
  split; [exact Hnil|].
  destruct (@reset_makes_every_word_available demo_pool exhausted_world)
    as (w' & Hr & Hc & Hsame).
  exists w'. split; [exact Hr|]. split; [exact Hc | exact (Hsame Hnil)].
Defined.

(** X8.  A selection attempt never throws: the index computed from the
    random number always falls inside the array of available words. *)
Theorem selection_never_throws P confirm w :
  (exists r, selectRandomWord P confirm (state w) (env w) = Return r) /\
  (exists w', fire P (NextWord confirm) w = Some w').
Proof.
  destruct (selectRandomWord_cases P confirm (state w) (env w))
    as [[_ Hex] | (selected & _ & Hsel)].
  - split; [eauto|]. unfold fire. simpl. rewrite Hex.
    destruct confirm; simpl; eauto.
  - split; [eauto|]. unfold fire. simpl. rewrite Hsel. eauto.
Qed.

(** *** Who changes what *)

(** X9.  What an event leaves alone.  Only a selection attempt and a reset
    change the ledger, the storage, the category, the word and All-Play; only
    a tick raises the alert; only a selection attempt draws random numbers;
    only a choice in the settings changes the duration. *)
Theorem events_touch_only_their_own_state P ev w w' :
  fire P ev w = Some w' ->
  ((forall c, ev <> NextWord c) -> ev <> Reset ->
   usedWords (state w') = usedWords (state w) /\
   localStorage (env w') = localStorage (env w) /\
   currentCategory (state w') = currentCategory (state w) /\
   currentWord (state w') = currentWord (state w) /\
   isAllPlay (state w') = isAllPlay (state w)) /\
  (ev <> Tick ->
   alerts (env w') = alerts (env w) /\ toasts (env w') = toasts (env w)) /\
  ((forall c, ev <> NextWord c) -> random (env w') = random (env w)) /\
  ((forall d, ev <> ChooseDuration d) ->
   timerDuration (state w') = timerDuration (state w)).
Proof.
  intros Hf. unfold fire in Hf.
  destruct (enabled ev w); [|discriminate].
  destruct (handle P ev (state w) (env w)) as [[s' e']|] eqn:Hh;
    [|discriminate].
  inversion Hf; subst; clear Hf. simpl state. simpl env.
  destruct (commit_alerts (state w) s' e') as (Ha & Ht & Hr).
  rewrite Ha, Ht, Hr, commit_localStorage.
  destruct ev; simpl in Hh;
    try (unfold startTimer, onInterval in Hh;
         repeat match type of Hh with
                | context [if ?b then _ else _] => destruct b
                end;
         inversion Hh; subst; simpl; rewrite ?Nat.eqb_refl;
         repeat (split || intro); try reflexivity; try congruence;
         exfalso;
         match goal with
         | H : forall _, _ <> _ |- _ => eapply H; reflexivity
         end).
  destruct (selectRandomWord_cases P confirm (state w) (env w))
    as [[_ Hex] | (selected & _ & Hsel)].
  - rewrite Hex in Hh.
    destruct confirm; inversion Hh; subst; simpl;
      repeat (split || intro); try reflexivity; try congruence;
      exfalso;
      match goal with
      | H : forall _, _ <> _ |- _ => eapply H; reflexivity
      end.
  - rewrite Hsel in Hh. inversion Hh; subst; simpl.
    repeat (split || intro); try reflexivity; try congruence;
      exfalso;
      match goal with
      | H : forall _, _ <> _ |- _ => eapply H; reflexivity
      end.
Qed.

Lemma events_touch_only_their_own_state_witness :
  fire demo_pool Tick running_world <> None /\
  forall w', fire demo_pool Tick running_world = Some w' ->
    usedWords (state w') = usedWords (state running_world) /\
    currentWord (state w') = currentWord (state running_world) /\
    random (env w') = random (env running_world) /\
    timerDuration (state w') = timerDuration (state running_world).
Proof.
  split; [vm_compute; discriminate|].
  intros w' Hf.
  destruct (@events_touch_only_their_own_state demo_pool Tick running_world
              w' Hf) as (Hl & _ & Hr & Hd).
  destruct Hl as (Hu & _ & _ & Hw & _); try discriminate.
  split; [exact Hu|]. split; [exact Hw|].
  split; [apply Hr; discriminate | apply Hd; discriminate].
Defined.

(** X10.  Without a current word (none, or the empty string) start does
    nothing at all. *)
Theorem start_without_word_is_noop P w :
  truthy (currentWord (state w)) = false ->
  fire P Start w = Some w.
Proof.
  intros Hw. unfold fire. simpl. unfold startTimer. rewrite Hw.
  rewrite commit_same. now destruct w.
Qed.

Lemma start_without_word_is_noop_witness :
  truthy (currentWord (state fresh_world)) = false /\
  fire demo_pool Start fresh_world = Some fresh_world.
Proof.
  split; [reflexivity|].
  apply (@start_without_word_is_noop demo_pool fresh_world). reflexivity.
Defined.

(** X11.  Stop pauses: in a reachable state with the timer running, stop
    keeps the time remaining, lets no tick follow, and a start after it gives
    back exactly the state before the stop. *)
Theorem stop_pauses_and_start_resumes P w :
  reachable P w ->
  timerRunning (state w) = true ->
  truthy (currentWord (state w)) = true ->
  exists w1,
    fire P Stop w = Some w1 /\
    timeRemaining (state w1) = timeRemaining (state w) /\
    timerRunning (state w1) = false /\
    fire P Tick w1 = None /\
    fire P Start w1 = Some w.
Proof.
  intros Hreach Hrun Hword.
  destruct (reachable_timer_inv Hreach) as [_ Hlive].
  destruct w as [s e].
  destruct s as [uw ref cat wd ap dur rem run rev sh].
  destruct e as [ls tr al to rn]. simpl in *. subst run tr.
  exists (mkWorld (mkState uw ref cat wd ap dur rem false rev sh)
                  (mkEnv ls false al to rn)).
  unfold fire. simpl. unfold startTimer, commit, saveEffect, timerEffect.
  simpl. rewrite !Nat.eqb_refl, Hword. simpl. rewrite !Nat.eqb_refl.
  destruct (0 <? rem); simpl; repeat split.
Qed.

Lemma stop_pauses_and_start_resumes_witness :
  reachable demo_pool running_world /\
  timerRunning (state running_world) = true /\
  truthy (currentWord (state running_world)) = true /\
  exists w1,
    fire demo_pool Stop running_world = Some w1 /\
    timeRemaining (state w1) = 60 /\
    fire demo_pool Start w1 = Some running_world.
Proof.
  split; [apply running_world_reachable|].
  split; [reflexivity|]. split; [reflexivity|].
  destruct (@stop_pauses_and_start_resumes demo_pool running_world
              running_world_reachable eq_refl eq_refl)
    as (w1 & Hs & Ht & _ & _ & Hr).
  exists w1. split; [exact Hs|]. split; [exact Ht | exact Hr].
Defined.

(** A turn keeps the duration, or sets it to an entry of [TIMER_OPTIONS]. *)
Lemma fire_duration P ev w w' :
  fire P ev w = Some w' ->
  timerDuration (state w') = timerDuration (state w) \/
  (exists d, timerDuration (state w') = d /\ In d TIMER_OPTIONS).
Proof.
  intros Hf. unfold fire in Hf.
  destruct (enabled ev w) eqn:Hen; [|discriminate].
  destruct (handle P ev (state w) (env w)) as [[s' e']|] eqn:Hh;
    [|discriminate].
  inversion Hf; subst; clear Hf. simpl state.
  destruct ev; simpl in Hh;
    try (unfold startTimer, onInterval in Hh;
         repeat match type of Hh with
                | context [if ?b then _ else _] => destruct b
                end;
         inversion Hh; subst; left; reflexivity).
  - destruct (selectRandomWord_cases P confirm (state w) (env w))
      as [[_ Hex] | (selected & _ & Hsel)].
    + rewrite Hex in Hh. destruct confirm; inversion Hh; subst; now left.
    + rewrite Hsel in Hh. inversion Hh; subst. now left.
  - inversion Hh; subst. right. exists duration. split; [reflexivity|].
    change (existsb (Z.eqb duration) TIMER_OPTIONS = true) in Hen.
    apply existsb_exists in Hen.
    destruct Hen as (x & Hx & Heq). apply Z.eqb_eq in Heq. now subst.
Qed.

Lemma reachable_duration P w :
  reachable P w -> In (timerDuration (state w)) TIMER_OPTIONS.
Proof.
  induction 1 as [saved g w Hm | w ev w' _ IH Hf].
  - unfold mount in Hm.
    destruct (usedWords_init saved) as [v|]; [|discriminate].
    destruct (as_string_array v); [|discriminate].
    inversion Hm; subst. simpl. unfold TIMER_DURATION, TIMER_OPTIONS.
    simpl. tauto.
  - destruct (fire_duration P ev w Hf) as [-> | (d & -> & Hd)];
      [exact IH | exact Hd].
Qed.

(** X12.  The duration of every reachable state is one of
    [TIMER_OPTIONS], hence between 30 and 120 seconds. *)
Theorem duration_is_an_option P w :
  reachable P w ->
  In (timerDuration (state w)) TIMER_OPTIONS /\
  30 <= timerDuration (state w) <= 120.
Proof.
  intros Hreach. pose proof (reachable_duration Hreach) as Hin.
  split; [exact Hin|].
  unfold TIMER_OPTIONS in Hin. simpl in Hin.
  repeat (destruct Hin as [<-|Hin]; [lia|]). contradiction.
Qed.

Lemma duration_is_an_option_witness :
  reachable demo_pool expired_world /\
  In (timerDuration (state expired_world)) TIMER_OPTIONS /\
  30 <= timerDuration (state expired_world) <= 120.
Proof.
  split; [apply expired_world_reachable|].
  apply (@duration_is_an_option demo_pool expired_world).
  apply expired_world_reachable.
Defined.

(** X13.  No early alert: fewer ticks than there are seconds remaining
    take that many seconds off, leave the timer running with its interval
    live, and raise no alert. *)
Theorem countdown_before_expiry P k : forall w,
  timerRef (env w) = true ->
  timerRunning (state w) = true ->
  Z.of_nat k < timeRemaining (state w) ->
  exists w',
    run P (repeat Tick k) w = Some w' /\
    timeRemaining (state w') = timeRemaining (state w) - Z.of_nat k /\
    timerRunning (state w') = true /\
    timerRef (env w') = true /\
    alerts (env w') = alerts (env w) /\
    toasts (env w') = toasts (env w).
Proof.
  induction k as [|k IH]; intros w Hlive Hrun Hlt.
  - exists w. simpl. repeat split; auto. lia.
  - destruct (@tick_step P w Hlive Hrun ltac:(lia))
      as (w1 & Hf & Ht1 & _ & _ & Hmid).
    destruct (Hmid ltac:(lia)) as (Hrun1 & Hlive1 & Ha1 & Hto1).
    destruct (IH w1 Hlive1 Hrun1 ltac:(lia))
      as (w' & Hr & Ht' & Hrun' & Hlive' & Ha' & Hto').
    exists w'. change (repeat Tick (S k)) with (Tick :: repeat Tick k).
    rewrite run_cons, Hf.
    repeat split; auto; try congruence. lia.
Qed.

Lemma countdown_before_expiry_witness :
  timerRef (env running_world) = true /\
  timerRunning (state running_world) = true /\
  Z.of_nat 59 < timeRemaining (state running_world) /\
  exists w',
    run demo_pool (repeat Tick 59) running_world = Some w' /\
    timeRemaining (state w') = 1 /\
    alerts (env w') = 0%nat.
Proof.
  split; [reflexivity|]. split; [reflexivity|]. split; [reflexivity|].
  destruct (@countdown_before_expiry demo_pool 59 running_world
              eq_refl eq_refl eq_refl) as (w' & Hr & Ht & _ & _ & Ha & _).
  exists w'. split; [exact Hr|]. split; [exact Ht | exact Ha].
Defined.

(** *** The controls *)

Lemma perform_step_inv P g w w' :
  (timerRunning (state w) = true -> truthy (currentWord (state w)) = true) /\
  (wordRevealed (state w) = true -> truthy (currentWord (state w)) = true) ->
  perform P g w = Some w' ->
  (timerRunning (state w') = true -> truthy (currentWord (state w')) = true) /\
  (wordRevealed (state w') = true -> truthy (currentWord (state w')) = true).
Proof.
  intros [Hrun Hrev] Hp. unfold perform in Hp.
  destruct (bound_handler g (state w)) as [ev|] eqn:Hb; [|discriminate].
  unfold fire in Hp.
  destruct (enabled ev w); [|discriminate].
  destruct (handle P ev (state w) (env w)) as [[s' e']|] eqn:Hh;
    [|discriminate].
  inversion Hp; subst; clear Hp. simpl state.
  destruct g; simpl in Hb;
    repeat match type of Hb with
           | context [if ?b then _ else _] => destruct b eqn:?
           end;
    inversion Hb; subst; clear Hb; simpl in Hh;
    try (unfold startTimer, onInterval in Hh;
         repeat match type of Hh with
                | context [if ?b then _ else _] => destruct b eqn:?
                end;
         inversion Hh; subst; simpl; split; intros; auto; discriminate).
  destruct (selectRandomWord_cases P confirm (state w) (env w))
    as [[_ Hex] | (selected & _ & Hsel)].
  - rewrite Hex in Hh.
    destruct confirm; inversion Hh; subst; simpl; split; intros; auto;
      discriminate.
  - rewrite Hsel in Hh. inversion Hh; subst; simpl.
    split; intros; discriminate.
Qed.

(** X14.  Through the controls of the page, as the JSX enables them, the
    timer never runs and the word is never revealed without a current
    word. *)
Theorem timer_and_reveal_need_a_word P saved g w0 gs : forall w,
  mount saved g = Some w0 ->
  perform_all P gs w0 = Some w ->
  (timerRunning (state w) = true -> truthy (currentWord (state w)) = true) /\
  (wordRevealed (state w) = true -> truthy (currentWord (state w)) = true).
Proof.
  intros w Hm.
  assert (H0 : (timerRunning (state w0) = true ->
                truthy (currentWord (state w0)) = true) /\
               (wordRevealed (state w0) = true ->
                truthy (currentWord (state w0)) = true)).
  { unfold mount in Hm.
    destruct (usedWords_init saved) as [v|]; [|discriminate].
    destruct (as_string_array v); [|discriminate].
    inversion Hm; subst. simpl. split; discriminate. }
  clear Hm. revert w0 H0.
  induction gs as [|x gs IH]; intros w0 H0 Hp; simpl in Hp.
  - inversion Hp; subst. exact H0.
  - destruct (perform P x w0) as [w1|] eqn:Hx; [|discriminate].
    eapply IH; [|exact Hp]. eapply perform_step_inv; eauto.
Qed.

Lemma timer_and_reveal_need_a_word_witness :
  mount None demo_rng = Some fresh_world /\
  perform_all demo_pool [ClickNextWord false; ClickStartStop] fresh_world
  = Some running_world /\
  (timerRunning (state running_world) = true ->
   truthy (currentWord (state running_world)) = true) /\
  (wordRevealed (state running_world) = true ->
   truthy (currentWord (state running_world)) = true).
Proof.
  assert (Hm : mount None demo_rng = Some fresh_world) by reflexivity.
  assert (Hp : perform_all demo_pool [ClickNextWord false; ClickStartStop]
                           fresh_world = Some running_world)
    by (vm_compute; reflexivity).
  split; [exact Hm|]. split; [exact Hp|].
  exact (@timer_and_reveal_need_a_word demo_pool None demo_rng fresh_world
           [ClickNextWord false; ClickStartStop] running_world Hm Hp).
Defined.

(** X15.  With a word selected, the start/stop button flips Timer Running
    and keeps the time remaining, and a second click gives back exactly the
    state before the first. *)
Theorem start_stop_button_toggles P w :
  reachable P w ->
  truthy (currentWord (state w)) = true ->
  exists w1,
    perform P ClickStartStop w = Some w1 /\
    timerRunning (state w1) = negb (timerRunning (state w)) /\
    timeRemaining (state w1) = timeRemaining (state w) /\
    perform P ClickStartStop w1 = Some w.
Proof.
  intros Hreach Hword.
  destruct (reachable_timer_inv Hreach) as [_ Hlive].
  destruct w as [s e].
  destruct s as [uw ref cat wd ap dur rem run rev sh].
  destruct e as [ls tr al to rn]. simpl in *. subst tr.
  destruct run.
  - exists (mkWorld (mkState uw ref cat wd ap dur rem false rev sh)
                    (mkEnv ls false al to rn)).
    unfold perform, fire. simpl. rewrite Hword. simpl.
    unfold startTimer, commit, saveEffect, timerEffect.
    simpl. rewrite !Nat.eqb_refl, ?Hword. simpl. rewrite ?Nat.eqb_refl.
    destruct (0 <? rem); simpl; repeat split.
  - exists (mkWorld (mkState uw ref cat wd ap dur rem true rev sh)
                    (mkEnv ls (0 <? rem) al to rn)).
    unfold perform, fire. simpl. rewrite Hword. simpl.
    unfold startTimer, commit, saveEffect, timerEffect.
    simpl. rewrite !Nat.eqb_refl, ?Hword. simpl. rewrite ?Nat.eqb_refl.
    destruct (0 <? rem); simpl; repeat split.
Qed.

Lemma start_stop_button_toggles_witness :
  reachable demo_pool running_world /\
  truthy (currentWord (state running_world)) = true /\
  exists w1,
    perform demo_pool ClickStartStop running_world = Some w1 /\
    timerRunning (state w1) = false /\
    perform demo_pool ClickStartStop w1 = Some running_world.
Proof.
  split; [apply running_world_reachable|]. split; [reflexivity|].
  destruct (@start_stop_button_toggles demo_pool running_world
              running_world_reachable eq_refl) as (w1 & H1 & Hr & _ & H2).
  exists w1. split; [exact H1|]. split; [exact Hr | exact H2].
Defined.

(** ** The clock *)

Lemma uint_units_inj d : forall d', uint_units d = uint_units d' -> d = d'.
Proof.
  induction d; destruct d'; simpl; intros H;
    try discriminate; try reflexivity;
    inversion H; f_equal; auto.
Qed.

Lemma Number_toString_inj m n :
  0 <= m -> 0 <= n -> Number_toString m = Number_toString n -> m = n.
Proof.
  destruct m as [|p|p], n as [|q|q]; simpl; intros Hm Hn H; try lia.
  - change [48%N] with (uint_units (Decimal.D0 Decimal.Nil)) in H.
    apply uint_units_inj in H. symmetry in H.
    now apply Unsigned.to_uint_nonzero in H.
  - change [48%N] with (uint_units (Decimal.D0 Decimal.Nil)) in H.
    apply uint_units_inj in H.
    now apply Unsigned.to_uint_nonzero in H.
  - apply uint_units_inj, Unsigned.to_uint_inj in H. now subst.
Qed.

(** The seconds of a minute always take two digits. *)
Lemma pad_seconds n :
  0 <= n < 60 ->
  padStart 2 48%N (Number_toString n)
  = [(48 + Z.to_N (n / 10))%N; (48 + Z.to_N (n mod 10))%N].
Proof.
  intros Hn.
  assert (H : n = Z.of_nat (Z.to_nat n)) by lia.
  rewrite H. generalize (Z.to_nat n) (proj2 (Nat2Z.inj_lt (Z.to_nat n) 60)
                                            ltac:(lia)).
  intros k Hk.
  do 60 (destruct k as [|k]; [vm_compute; reflexivity|]). lia.
Qed.

Lemma formatTime_shape s :
  0 <= s ->
  formatTime s
  = Number_toString (s / 60)
      ++ [58%N; (48 + Z.to_N (s mod 60 / 10))%N;
          (48 + Z.to_N (s mod 60 mod 10))%N].
Proof.
  intros Hs. unfold formatTime.
  rewrite Z.rem_mod_nonneg by lia.
  rewrite pad_seconds by (apply Z.mod_pos_bound; lia). reflexivity.
Qed.

(** X16.  For a whole number of seconds from 0 to [MAX_SAFE_INTEGER],
    [formatTime] writes the minutes, a colon and exactly two digits of
    seconds (the first at most 5), and different times are written
    differently. *)
Theorem formatTime_two_digit_seconds_and_injective :
  (forall s, 0 <= s <= MAX_SAFE_INTEGER ->
     exists d1 d2,
       formatTime s = Number_toString (s / 60) ++ [58%N; d1; d2] /\
       (48 <= d1 <= 53)%N /\ (48 <= d2 <= 57)%N) /\
  (forall a b,
     0 <= a <= MAX_SAFE_INTEGER -> 0 <= b <= MAX_SAFE_INTEGER ->
     formatTime a = formatTime b -> a = b).
Proof.
  split.
  - intros s [Hs _]. rewrite formatTime_shape by exact Hs.
    pose proof (Z.mod_pos_bound s 60 ltac:(lia)) as Hm.
    pose proof (Z.div_pos (s mod 60) 10 ltac:(lia) ltac:(lia)).
    pose proof (Z.div_lt_upper_bound (s mod 60) 10 6 ltac:(lia) ltac:(lia)).
    pose proof (Z.mod_pos_bound (s mod 60) 10 ltac:(lia)).
    eexists. eexists. split; [reflexivity|]. lia.
  - intros a b [Ha _] [Hb _] H.
    rewrite !formatTime_shape in H by assumption.
    pose proof (Z.mod_pos_bound a 60 ltac:(lia)) as Hma.
    pose proof (Z.mod_pos_bound b 60 ltac:(lia)) as Hmb.
    change [58%N; (48 + Z.to_N (a mod 60 / 10))%N;
            (48 + Z.to_N (a mod 60 mod 10))%N]
      with ([58%N; (48 + Z.to_N (a mod 60 / 10))%N]
              ++ [(48 + Z.to_N (a mod 60 mod 10))%N]) in H.
    change [58%N; (48 + Z.to_N (b mod 60 / 10))%N;
            (48 + Z.to_N (b mod 60 mod 10))%N]
      with ([58%N; (48 + Z.to_N (b mod 60 / 10))%N]
              ++ [(48 + Z.to_N (b mod 60 mod 10))%N]) in H.
    rewrite !app_assoc in H. apply app_inj_tail in H. destruct H as [H H2].
    change [58%N; (48 + Z.to_N (a mod 60 / 10))%N]
      with ([58%N] ++ [(48 + Z.to_N (a mod 60 / 10))%N]) in H.
    change [58%N; (48 + Z.to_N (b mod 60 / 10))%N]
      with ([58%N] ++ [(48 + Z.to_N (b mod 60 / 10))%N]) in H.
    rewrite !app_assoc in H. apply app_inj_tail in H. destruct H as [H H1].
    apply app_inj_tail in H. destruct H as [H _].
    apply Number_toString_inj in H;
      [|apply Z.div_pos; lia|apply Z.div_pos; lia].
    pose proof (Z.div_pos (a mod 60) 10 ltac:(lia) ltac:(lia)).
    pose proof (Z.div_pos (b mod 60) 10 ltac:(lia) ltac:(lia)).
    pose proof (Z.mod_pos_bound (a mod 60) 10 ltac:(lia)).
    pose proof (Z.mod_pos_bound (b mod 60) 10 ltac:(lia)).
    assert (E1 : a mod 60 / 10 = b mod 60 / 10) by lia.
    assert (E2 : a mod 60 mod 10 = b mod 60 mod 10) by lia.
    rewrite (Z.div_mod a 60), (Z.div_mod b 60) by lia.
    rewrite (Z.div_mod (a mod 60) 10), (Z.div_mod (b mod 60) 10) by lia.
    now rewrite H, E1, E2.
Qed.

Lemma formatTime_two_digit_seconds_and_injective_witness :
  0 <= 75 <= MAX_SAFE_INTEGER /\
  exists d1 d2,
    formatTime 75 = Number_toString 1 ++ [58%N; d1; d2] /\
    (48 <= d1 <= 53)%N /\ (48 <= d2 <= 57)%N.
Proof.
  assert (Hr : 0 <= 75 <= MAX_SAFE_INTEGER) by (unfold MAX_SAFE_INTEGER; lia).
  split; [exact Hr|].
  destruct formatTime_two_digit_seconds_and_injective as [Hshape _].
  exact (Hshape 75 Hr).
Defined.

(** X17.  The clock of every reachable state has four characters, one
    digit of minutes (0 to 2), a colon and two digits of seconds, and they
    spell the time remaining. *)
Theorem clock_of_reachable_state P w :
  reachable P w ->
  exists m d1 d2,
    formatTime (timeRemaining (state w)) = [m; 58%N; d1; d2] /\
    (48 <= m <= 50)%N /\ (48 <= d1 <= 53)%N /\ (48 <= d2 <= 57)%N /\
    timeRemaining (state w)
    = 60 * (Z.of_N m - 48) + 10 * (Z.of_N d1 - 48) + (Z.of_N d2 - 48).
Proof.
  intros Hreach.
  destruct (reachable_timer_inv Hreach) as [[Hrange _] _].
  pose proof (reachable_duration Hreach) as Hin.
  assert (Hd : timerDuration (state w) <= 120).
  { unfold TIMER_OPTIONS in Hin. simpl in Hin.
    repeat (destruct Hin as [<-|Hin]; [lia|]). contradiction. }
  set (t := timeRemaining (state w)) in *.
  rewrite formatTime_shape by lia.
  pose proof (Z.mod_pos_bound t 60 ltac:(lia)) as Hm.
  pose proof (Z.div_pos (t mod 60) 10 ltac:(lia) ltac:(lia)).
  pose proof (Z.div_lt_upper_bound (t mod 60) 10 6 ltac:(lia) ltac:(lia)).
  pose proof (Z.mod_pos_bound (t mod 60) 10 ltac:(lia)).
  pose proof (Z.div_mod t 60 ltac:(lia)) as E.
  pose proof (Z.div_mod (t mod 60) 10 ltac:(lia)) as E'.
  assert (Hq : t / 60 = 0 \/ t / 60 = 1 \/ t / 60 = 2).
  { pose proof (Z.div_pos t 60 ltac:(lia) ltac:(lia)).
    pose proof (Z.div_lt_upper_bound t 60 3 ltac:(lia) ltac:(lia)). lia. }
  exists (48 + Z.to_N (t / 60))%N, (48 + Z.to_N (t mod 60 / 10))%N,
         (48 + Z.to_N (t mod 60 mod 10))%N.
  split; [|lia].
  destruct Hq as [-> | [-> | ->]]; reflexivity.
Qed.

Lemma clock_of_reachable_state_witness :
  reachable demo_pool running_world /\
  exists m d1 d2,
    formatTime (timeRemaining (state running_world)) = [m; 58%N; d1; d2] /\
    (48 <= m <= 50)%N.
Proof.
  split; [apply running_world_reachable|].
  destruct (@clock_of_reachable_state demo_pool running_world
              running_world_reachable) as (m & d1 & d2 & Hf & Hm & _).
  exists m, d1, d2. split; [exact Hf | exact Hm].
Defined.

(** ** The name of the category *)

Lemma split_nonempty sep s : exists seg segs, split sep s = seg :: segs.
Proof.
  induction s as [|c r (seg & segs & IH)]; simpl; [eauto|].
  destruct (c =? sep)%N; [eauto|]. rewrite IH. eauto.
Qed.

Lemma join_cons_app sep a b rest :
  join sep ((a ++ b) :: rest) = a ++ join sep (b :: rest).
Proof. destruct rest; simpl; [reflexivity | now rewrite <- app_assoc]. Qed.

Section CategoryName.

Variable toUpperCase : jsstring -> jsstring.
Hypothesis toUpperCase_empty : toUpperCase [] = [].

Lemma title_pass_split s : forall fresh,
  title_pass toUpperCase fresh s
  = join (lit " ")
         (match split 95%N s with
          | seg :: segs =>
              (if fresh then toUpperCase (charAt0 seg) ++ slice1 seg else seg)
                :: map (fun w => toUpperCase (charAt0 w) ++ slice1 w) segs
          | [] => []
          end).
Proof.
  induction s as [|c r IH]; intros fresh.
  - simpl. rewrite toUpperCase_empty. now destruct fresh.
  - cbn [title_pass split].
    destruct (split_nonempty 95%N r) as (seg & segs & Hsp).
    destruct (c =? 95)%N.
    + rewrite (IH true), Hsp.
      replace (if fresh then toUpperCase (charAt0 []) ++ slice1 [] else [])
        with (@nil N)
        by (simpl; rewrite toUpperCase_empty; now destruct fresh).
      reflexivity.
    + rewrite (IH false), Hsp.
      destruct fresh.
      * simpl charAt0. simpl slice1. now rewrite join_cons_app.
      * change (c :: seg) with ([c] ++ seg). now rewrite join_cons_app.
Qed.

End CategoryName.

(** X18.  [formatCategoryName] in one pass over the identifier: every
    underscore becomes a space, the first code unit of every part is put in
    upper case, and the rest is copied; without a category, or with the empty
    identifier, the name is "No Category". *)
Theorem formatCategoryName_in_one_pass toUpperCase s :
  toUpperCase [] = [] ->
  formatCategoryName toUpperCase s
  = match currentCategory s with
    | Some (c :: r) => title_pass toUpperCase true (c :: r)
    | _ => lit "No Category"
    end.
Proof.
  intros Hup. unfold formatCategoryName.
  destruct (currentCategory s) as [[|c r]|]; try reflexivity.
  rewrite (title_pass_split toUpperCase Hup (c :: r) true).
  destruct (split_nonempty 95%N (c :: r)) as (seg & segs & ->).
  reflexivity.
Qed.

Lemma ascii_upper_empty : ascii_upper [] = [].
Proof. reflexivity. Qed.

Lemma formatCategoryName_in_one_pass_witness :
  ascii_upper [] = [] /\
  formatCategoryName ascii_upper titled_state = lit "Farm Animals".
Proof.
  split; [reflexivity|].
  rewrite (@formatCategoryName_in_one_pass ascii_upper titled_state
             ascii_upper_empty).
  reflexivity.
Defined.






(* ================================================================= *)
(** * The expiry in the two builds *)

Lemma fireIn_Production P ev w : fireIn P Production ev w = fire P ev w.
Proof.
  destruct ev; reflexivity.
Qed.

(** The last second in a development build: the updater runs twice and so do
    the calls it makes. *)
Lemma development_tick_alerts_twice P w :
  timerRef (env w) = true ->
  timeRemaining (state w) = 1 ->
  exists w',
    fireIn P Development Tick w = Some w' /\
    timeRemaining (state w') = 0 /\
    timerRunning (state w') = false /\
    alerts (env w') = S (S (alerts (env w))) /\
    toasts (env w') = S (S (toasts (env w))).
Proof.
  intros Hlive Hone.
  unfold fireIn, onIntervalIn, onInterval. simpl. rewrite Hlive, Hone. simpl.
  eexists. split; [reflexivity|]. simpl.
  match goal with
  | |- context [commit ?o ?n ?e] =>
      destruct (commit_alerts o n e) as (Ha & Ht & _); rewrite Ha, Ht
  end.
  repeat split.
Qed.

Lemma ready_world_reachable : reachable demo_pool ready_world.
Proof.
  eapply reachable_run with (evs := [NextWord false]);
    [apply fresh_world_reachable | vm_compute; reflexivity].
Qed.

(** C7.  The claim holds except for its count of alerts.  With "cat" selected
    and 60 seconds remaining, start followed by 60 ticks ends, in both
    builds, with no time remaining and the timer stopped.  The build for
    production raises the alert once, as the claim says.  The development
    build raises it twice, sound and vibration and the toast alike: the calls
    sit inside the updater passed to [setTimeRemaining], and React runs that
    updater twice under [<StrictMode>]. *)
Theorem expiry_alerts_twice_in_development :
  exists dev prod,
    runIn demo_pool Development (Start :: repeat Tick 60) ready_world
    = Some dev /\
    runIn demo_pool Production (Start :: repeat Tick 60) ready_world
    = Some prod /\
    timeRemaining (state dev) = 0 /\ timerRunning (state dev) = false /\
    timeRemaining (state prod) = 0 /\ timerRunning (state prod) = false /\
    alerts (env prod) = 1%nat /\ toasts (env prod) = 1%nat /\
    alerts (env dev) = 2%nat /\ toasts (env dev) = 2%nat /\
    state dev = state prod.
Proof.
  eexists. eexists.
  split; [vm_compute; reflexivity|].
  split; [vm_compute; reflexivity|].
  repeat split.
Qed.
